(** * CAN transfer serialization of pyuavcan: [serialize_transfer]

    A shallow embedding of
    [pyuavcan/transport/can/_session/_transfer_sender.py] together with the
    collaborators it calls (DLC table, CRC engine, refragmenter, frame
    compilation, reassembler), and the properties of the framing codec. *)

From Stdlib Require Import ZArith List Bool Lia.
From Stdlib.Strings Require Import Byte.
From Stdlib.Strings Require Ascii String.
From Equations Require Import Equations.
Import ListNotations.

Open Scope Z_scope.

(** ** Python values *)

(** [len(x)] of a bytes-like object, as the unbounded Python integer. *)
Definition len {A : Type} (l : list A) : Z := Z.of_nat (length l).

Definition byte_to_Z (b : byte) : Z := Z.of_N (Byte.to_N b).

(** The exceptions that the modelled code can raise. *)
Inductive value_error : Type :=
| InvalidMaxPayload (max_frame_payload_bytes : Z)
| UnpackTooFew (got : nat)
| UnpackTooMany
| ByteOutOfRange (v : Z).

Inductive exn : Type :=
| ValueError (why : value_error)
| AssertionError
| NoLegalFrameLength (data_length : Z).

Inductive result (R : Type) : Type :=
| Ok (r : R)
| Raise (e : exn).
Arguments Ok {R} r.
Arguments Raise {R} e.

(** A generator run to exhaustion: the items it yielded, in order, and how
    it stopped (normal return or an exception after the last yield). *)
Record gen (Y R : Type) : Type := Gen { yielded : list Y; outcome : result R }.
Arguments Gen {Y R} yielded outcome.
Arguments yielded {Y R} g.
Arguments outcome {Y R} g.

Module GenMonad.

Definition ret {Y R} (r : R) : gen Y R := Gen [] (Ok r).

Definition raise {Y R} (e : exn) : gen Y R := Gen [] (Raise e).

Definition yield {Y} (y : Y) : gen Y unit := Gen [y] (Ok tt).

Definition lift {Y R} (r : result R) : gen Y R := Gen [] r.

Definition bind {Y R S} (m : gen Y R) (k : R -> gen Y S) : gen Y S :=
  match outcome m with
  | Raise e => Gen (yielded m) (Raise e)
  | Ok r => let n := k r in Gen (yielded m ++ yielded n) (outcome n)
  end.

(** [for x in xs: body(x)] *)
Fixpoint for_each {Y A} (xs : list A) (body : A -> gen Y unit) : gen Y unit :=
  match xs with
  | [] => ret tt
  | x :: rest => bind (body x) (fun _ => for_each rest body)
  end.

Declare Scope gen_scope.
Delimit Scope gen_scope with gen.
Notation "x <- m ;; k" := (bind m (fun x => k))
  (at level 61, m at next level, right associativity) : gen_scope.
Notation "m ;; k" := (bind m (fun _ => k))
  (at level 61, right associativity) : gen_scope.

End GenMonad.
Import GenMonad.

(** [bytes([v0, v1, ...])]: every item must be in [range(256)]. *)
Definition byte_of_int (v : Z) : result byte :=
  if (0 <=? v) && (v <? 256) then
    match Byte.of_N (Z.to_N v) with
    | Some b => Ok b
    | None => Raise (ValueError (ByteOutOfRange v))
    end
  else Raise (ValueError (ByteOutOfRange v)).

Fixpoint bytes_of_ints (vs : list Z) : result (list byte) :=
  match vs with
  | [] => Ok []
  | v :: rest =>
      match byte_of_int v with
      | Raise e => Raise e
      | Ok b =>
          match bytes_of_ints rest with
          | Raise e => Raise e
          | Ok bs => Ok (b :: bs)
          end
      end
  end.

(** ** Collaborators of the serializer that live outside the given source *)

Module Frame.

(** Modelled from the spec: the constant [_frame.TRANSFER_CRC_LENGTH_BYTES]
    is not part of the given source; the spec's multi-frame rule reads
    "rem + 2 (CRC length)". *)
Definition TRANSFER_CRC_LENGTH_BYTES : Z := 2.

(** Modelled from the spec: [TRANSFER_ID_MODULO] is not part of the given
    source; the spec's wire format has a 5-bit transfer id "truncated mod
    32". *)
Definition TRANSFER_ID_MODULO : Z := 32.

(** Modelled from the spec: the DLC table is not part of the given source.
    Spec section 2: legal CAN FD frame data lengths are "0-8 exact, then
    12,16,20,24,32,48,64". *)
Definition LEGAL_DATA_LENGTHS : list Z :=
  [0; 1; 2; 3; 4; 5; 6; 7; 8; 12; 16; 20; 24; 32; 48; 64].

(** Modelled from the spec: the DLC table lookup, "the smallest legal
    CAN/CAN-FD frame data length >= that byte length".  There is none
    above 64. *)
Definition dlc_ceil (data_length : Z) : option Z :=
  find (fun x => data_length <=? x) LEGAL_DATA_LENGTHS.

Definition dlc_legal (n : Z) : Prop := In n LEGAL_DATA_LENGTHS.

Definition dlc_legalb (n : Z) : bool :=
  existsb (Z.eqb n) LEGAL_DATA_LENGTHS.

(** Modelled from the spec: [UAVCANFrame.get_required_padding] is not part
    of the given source.  Spec section 4.1 pads a length up to the
    smallest DLC-legal length; by section 6 and the glossary the tail byte
    is the final byte of every frame's data, so the length that has to be
    DLC-legal is the payload plus one.  The unit test of the given source
    pins this reading: five bytes need no padding, 60 bytes need 3
    (60 + 3 + 1 = 64), and ten bytes need one (10 + 1 + 1 = 12).  The
    function takes the data length only, as the serializer calls it. *)
Definition get_required_padding (data_length : Z) : result Z :=
  match dlc_ceil (data_length + 1) with
  | Some supremum => Ok (supremum - (data_length + 1))
  | None => Raise (NoLegalFrameLength (data_length + 1))
  end.

(** The dataclass that [serialize_transfer] instantiates. *)
Record UAVCANFrame : Type := mkUAVCANFrame {
  identifier : Z;
  padded_payload : list byte;
  transfer_id : Z;
  start_of_transfer : bool;
  end_of_transfer : bool;
  toggle_bit : bool;
  loopback : bool
}.

End Frame.

Module CRC16CCITT.

(** Modelled from the spec: [pyuavcan.util.hash.CRC16CCITT] is not part of
    the given source.  Spec section 6: "CRC-16/CCITT-FALSE variant,
    polynomial 0x1021, initial value 0xFFFF, no input/output reflection";
    section 2: "fed byte-wise or buffer-wise". *)
Definition POLYNOMIAL : Z := 0x1021.
Definition INITIAL : Z := 0xFFFF.

Definition shift_bit (crc : Z) : Z :=
  if Z.testbit crc 15
  then Z.land (Z.lxor (Z.shiftl crc 1) POLYNOMIAL) 0xFFFF
  else Z.land (Z.shiftl crc 1) 0xFFFF.

Definition add_byte (crc : Z) (b : byte) : Z :=
  let x := Z.lxor crc (Z.shiftl (byte_to_Z b) 8) in
  shift_bit (shift_bit (shift_bit (shift_bit
    (shift_bit (shift_bit (shift_bit (shift_bit x))))))).

(** [crc.add(buffer)] on the running value. *)
Definition add (crc : Z) (data : list byte) : Z := fold_left add_byte data crc.

(** The CRC of a whole buffer, from a fresh engine. *)
Definition of_bytes (data : list byte) : Z := add INITIAL data.

End CRC16CCITT.

Module Util.

(** Modelled from the spec: [pyuavcan.util.refragment] is not part of the
    given source.  Spec section 4.3: chunks of exactly [max_chunk] bytes,
    in order, without loss or duplication, "except the final chunk, which
    holds the remainder and may be shorter", and "never a spurious empty
    tail": no chunk is empty, so an empty stream has no chunk.  [chunks]
    cuts one byte stream; the chunk size is [S k]. *)
Equations? chunks {A : Type} (k : nat) (stream : list A) : list (list A)
  by wf (length stream) lt :=
  chunks k [] := [];
  chunks k (x :: rest) := firstn (S k) (x :: rest) :: chunks k (skipn k rest).
Proof.
  pose proof (length_skipn k rest). simpl. lia.
Qed.

(** Modelled from the spec: [pyuavcan.util.refragment], see [chunks].
    Fragment boundaries of the input carry no meaning (spec section 3): the
    refragmenter re-cuts the concatenation of its input buffers. *)
Definition refragment (input_fragments : list (list byte))
           (output_fragment_size : Z) : list (list byte) :=
  match Z.to_nat output_fragment_size with
  | O => []
  | S k => chunks k (concat input_fragments)
  end.

(** Modelled from the spec: [pyuavcan.util.mark_last] is not part of the
    given source.  It pairs every item with the flag "is the last one"
    (spec section 4.2: "EOT = (chunk is last)"). *)
Fixpoint mark_last {A : Type} (items : list A) : list (bool * A) :=
  match items with
  | [] => []
  | [x] => [(true, x)]
  | x :: rest => (false, x) :: mark_last rest
  end.

(** Python's [enumerate]. *)
Fixpoint enumerate_from {A : Type} (start : Z) (items : list A) : list (Z * A) :=
  match items with
  | [] => []
  | x :: rest => (start, x) :: enumerate_from (start + 1) rest
  end.

Definition enumerate {A : Type} (items : list A) : list (Z * A) :=
  enumerate_from 0 items.

End Util.

(** ** The serializer, from [_transfer_sender.py] *)

Import Frame.

Definition _PADDING_PATTERN : list byte := [x55].

(** [pattern * count] on bytes: a count below one gives the empty buffer. *)
Definition bytes_mul (pattern : list byte) (count : Z) : list byte :=
  concat (repeat pattern (Z.to_nat count)).

(** [payload, = tuple(refragmented)]: exactly one item, or [ValueError]. *)
Definition unpack_one {A : Type} (items : list A) : result A :=
  match items with
  | [x] => Ok x
  | [] => Raise (ValueError (UnpackTooFew 0))
  | _ :: _ :: _ => Raise (ValueError UnpackTooMany)
  end.

Definition assert_ (cond : bool) : result unit :=
  if cond then Ok tt else Raise AssertionError.

(** [sum(map(len, fragmented_payload))] *)
Definition sum_len (fragmented_payload : list (list byte)) : Z :=
  fold_right Z.add 0 (map len fragmented_payload).

(** The "Compute padding" block of the multi-frame branch. *)
Definition multi_frame_padding (payload_length max_frame_payload_bytes : Z)
  : result (list byte) :=
  let last_frame_payload_length := payload_length mod max_frame_payload_bytes in
  if last_frame_payload_length + TRANSFER_CRC_LENGTH_BYTES >=? max_frame_payload_bytes
  then Ok []
  else
    let last_frame_data_length := last_frame_payload_length + TRANSFER_CRC_LENGTH_BYTES in
    match get_required_padding last_frame_data_length with
    | Ok n => Ok (bytes_mul _PADDING_PATTERN n)
    | Raise e => Raise e
    end.

(** The "Compute CRC" block: every fragment, then the padding. *)
Definition transfer_crc (fragmented_payload : list (list byte)) (padding : list byte) : Z :=
  CRC16CCITT.add (fold_left CRC16CCITT.add fragmented_payload CRC16CCITT.INITIAL) padding.

Definition serialize_transfer (compiled_identifier : Z) (transfer_id : Z)
           (fragmented_payload : list (list byte))
           (max_frame_payload_bytes : Z) (loopback : bool) : gen UAVCANFrame unit :=
  (if max_frame_payload_bytes <? 1 then
     raise (ValueError (InvalidMaxPayload max_frame_payload_bytes))
   else
     let payload_length := sum_len fragmented_payload in
     if payload_length <=? max_frame_payload_bytes then
       (* single-frame transfer *)
       padding_length <- lift (get_required_padding payload_length) ;;
       let refragmented :=
         Util.refragment (fragmented_payload ++ [bytes_mul _PADDING_PATTERN padding_length])
                         max_frame_payload_bytes in
       payload <- lift (unpack_one refragmented) ;;
       lift (assert_ ((len payload <=? max_frame_payload_bytes)
                      && (payload_length <=? len payload))) ;;
       yield (mkUAVCANFrame compiled_identifier payload transfer_id
                            true true true loopback)
     else
       (* multi-frame transfer *)
       padding <- lift (multi_frame_padding payload_length max_frame_payload_bytes) ;;
       let crc := transfer_crc fragmented_payload padding in
       crc_bytes <- lift (bytes_of_ints [Z.shiftr crc 8; Z.land crc 0xFF]) ;;
       let trailing_bytes := padding ++ crc_bytes in
       let refragmented :=
         Util.refragment (fragmented_payload ++ [trailing_bytes])
                         max_frame_payload_bytes in
       for_each (Util.enumerate (Util.mark_last refragmented))
                (fun '(index, (last, frag)) =>
                   yield (mkUAVCANFrame compiled_identifier frag transfer_id
                                        (index =? 0) last (index mod 2 =? 0)
                                        loopback)))%gen.

(** ** Frame compilation, and the expectation builder of the unit test *)

Module Media.

(** Modelled from the spec: the media-layer declarations [FrameFormat] and
    [DataFrame] are not part of the given source; the fields are those that
    [mkf] passes to the constructor.  [data] holds the bytes as they go on
    the bus, the tail byte included. *)
Inductive FrameFormat : Type := BASE | EXTENDED.

Record DataFrame : Type := mkDataFrame {
  identifier : Z;
  data : list byte;
  format : FrameFormat;
  loopback : bool
}.

End Media.

(** [tail |= 1 << bit] when [flag] holds. *)
Definition set_flag (flag : bool) (bit : Z) (tail : Z) : Z :=
  if flag then Z.lor tail (Z.shiftl 1 bit) else tail.

(** [mkf] of [_unittest_can_serialize_transfer]: the expected media frame,
    built from an already reduced transfer id. [bytearray.append] raises
    [ValueError] for an item outside [range(256)]. *)
Definition mkf (identifier : Z) (data : list byte) (transfer_id : Z)
           (start_of_transfer end_of_transfer toggle_bit : bool)
           (loopback : bool) : result Media.DataFrame :=
  let tail := transfer_id in
  let tail := set_flag start_of_transfer 7 tail in
  let tail := set_flag end_of_transfer 6 tail in
  let tail := set_flag toggle_bit 5 tail in
  match byte_of_int tail with
  | Ok t => Ok (Media.mkDataFrame identifier (data ++ [t]) Media.EXTENDED loopback)
  | Raise e => Raise e
  end.

(** Modelled from the spec: [UAVCANFrame.compile] is not part of the given
    source.  Spec sections 3 and 6: the tail byte is the final byte of the
    frame data, "bit7=SOT, bit6=EOT, bit5=toggle, bits4..0=transfer_id"
    with the transfer id "truncated mod 32"; all preceding bytes are the
    padded payload. *)
Definition compile (f : UAVCANFrame) : result Media.DataFrame :=
  let tail := transfer_id f mod TRANSFER_ID_MODULO in
  let tail := set_flag (start_of_transfer f) 7 tail in
  let tail := set_flag (end_of_transfer f) 6 tail in
  let tail := set_flag (toggle_bit f) 5 tail in
  match byte_of_int tail with
  | Ok t => Ok (Media.mkDataFrame (identifier f) (padded_payload f ++ [t]) Media.EXTENDED (loopback f))
  | Raise e => Raise e
  end.

(** [run] of the unit test: serialize, then compile every frame. *)
Fixpoint compile_all (frames : list UAVCANFrame) : result (list Media.DataFrame) :=
  match frames with
  | [] => Ok []
  | f :: rest =>
      match compile f with
      | Raise e => Raise e
      | Ok d =>
          match compile_all rest with
          | Raise e => Raise e
          | Ok ds => Ok (d :: ds)
          end
      end
  end.

(** ** The reassembler *)

Module Reassembler.

(** Modelled from the spec: the transfer reassembler is not part of the
    given source.  Spec section 3 gives the reception state
    ([active_transfer_id], [accumulated_payload], [expected_toggle]);
    section 4.4 gives the transitions, one frame at a time; section 7
    names the errors. *)
Inductive reception : Type :=
| IDLE
| ACCUMULATING (active_transfer_id : Z) (accumulated_payload : list byte)
               (expected_toggle : bool).

Inductive reception_error : Type :=
| ToggleViolation
| TransferIdMismatch
| CrcMismatch
| OrphanContinuation.

Inductive fed : Type :=
| Pending
| Delivered (payload : list byte)
| Rejected (e : reception_error).

(** The transmitted CRC: the final two bytes, high byte first. *)
Definition crc_of_trailer (trailer : list byte) : option Z :=
  match trailer with
  | [hi; lo] => Some (Z.lor (Z.shiftl (byte_to_Z hi) 8) (byte_to_Z lo))
  | _ => None
  end.

(** End of a multi-frame transfer: "split the accumulated buffer's final
    2 bytes off as the transmitted CRC; compute CRC16CCITT over the
    remaining bytes; if it does not match, report a CRC-mismatch error";
    otherwise "deliver the remaining bytes". *)
Definition complete (accumulated : list byte) : fed :=
  let n := (length accumulated - 2)%nat in
  let body := firstn n accumulated in
  match crc_of_trailer (skipn n accumulated) with
  | Some transmitted =>
      if transmitted =? CRC16CCITT.of_bytes body
      then Delivered body
      else Rejected CrcMismatch
  | None => Rejected CrcMismatch
  end.

Definition feed (state : reception) (frame : UAVCANFrame) : reception * fed :=
  if start_of_transfer frame then
    (* a new start of transfer always wins *)
    if end_of_transfer frame then
      (IDLE, Delivered (padded_payload frame))
    else
      (ACCUMULATING (transfer_id frame) (padded_payload frame)
                    (negb (toggle_bit frame)), Pending)
  else
    match state with
    | IDLE => (IDLE, Rejected OrphanContinuation)
    | ACCUMULATING active accumulated expected =>
        if negb (transfer_id frame =? active) then
          (IDLE, Rejected TransferIdMismatch)
        else if negb (Bool.eqb (toggle_bit frame) expected) then
          (IDLE, Rejected ToggleViolation)
        else
          let accumulated' := accumulated ++ padded_payload frame in
          if end_of_transfer frame then (IDLE, complete accumulated')
          else (ACCUMULATING active accumulated' (negb expected), Pending)
    end.

(** Frames are processed "in the order frames are received". *)
Fixpoint feed_all (state : reception) (frames : list UAVCANFrame)
  : reception * list fed :=
  match frames with
  | [] => (state, [])
  | frame :: rest =>
      let (state', r) := feed state frame in
      let (final, rs) := feed_all state' rest in
      (final, r :: rs)
  end.

(** What the consumer of the reassembler sees for a frame sequence fed to
    a fresh session. *)
Definition reassemble (frames : list UAVCANFrame) : list fed :=
  snd (feed_all IDLE frames).

End Reassembler.

(** ** Test vectors of [_unittest_can_serialize_transfer] *)

(** [bytes(range(n))] for [n <= 256]. *)
Definition bytes_range (n : nat) : list byte :=
  flat_map (fun i => match Byte.of_N (N.of_nat i) with
                     | Some b => [b]
                     | None => []
                     end) (seq 0 n).

Definition frag_Hell : list byte := [x48; x65; x6c; x6c].
Definition frag_o : list byte := [x6f].
Definition Hello : list byte := [x48; x65; x6c; x6c; x6f].

(** ** Vocabulary of the statements *)

(** The frame that the emission loop of the multi-frame branch builds from
    one item of [enumerate(mark_last(refragmented))]. *)
Definition frame_of (compiled_identifier transfer_id : Z) (loopback : bool)
           (item : Z * (bool * list byte)) : UAVCANFrame :=
  let '(index, (last, frag)) := item in
  mkUAVCANFrame compiled_identifier frag transfer_id
                (index =? 0) last (index mod 2 =? 0) loopback.

(** The byte stream that a frame sequence carries, tail bytes aside. *)
Definition carried (frames : list UAVCANFrame) : list byte :=
  concat (map padded_payload frames).

(** [all(...)] over expected frames: the list of the values, or the first
    exception. *)
Fixpoint all_ok {A : Type} (rs : list (result A)) : result (list A) :=
  match rs with
  | [] => Ok []
  | Raise e :: _ => Raise e
  | Ok a :: rest =>
      match all_ok rest with
      | Ok xs => Ok (a :: xs)
      | Raise e => Raise e
      end
  end.

(** Only padding bytes. *)
Definition only_padding (bs : list byte) : Prop := Forall (eq x55) bs.

(** The round trip as the spec words it, for one transfer: the reassembler
    delivers the payload, followed by padding bytes at most. *)
Definition delivers_payload (fragmented_payload : list (list byte))
           (max_frame_payload_bytes : Z) : Prop :=
  forall cid tid lb, exists padding,
    only_padding padding
    /\ In (Reassembler.Delivered (concat fragmented_payload ++ padding))
          (Reassembler.reassemble
             (yielded (serialize_transfer cid tid fragmented_payload
                                          max_frame_payload_bytes lb))).

(** Single-frame framing as the spec words it, for one transfer. *)
Definition emits_one_frame (fragmented_payload : list (list byte))
           (max_frame_payload_bytes : Z) : Prop :=
  forall cid tid lb, exists f,
    yielded (serialize_transfer cid tid fragmented_payload max_frame_payload_bytes lb) = [f]
    /\ start_of_transfer f = true /\ end_of_transfer f = true /\ toggle_bit f = true.

(** [count] more bytes bring [from] to the smallest legal frame length, and
    that length is within [bound]. *)
Definition rounds_up_within (from count bound : Z) : Prop :=
  dlc_legal (from + count)
  /\ from + count <= bound
  /\ (forall m, dlc_legal m -> from <= m -> from + count <= m).

(** The multi-frame padding rule as the spec words it, for one payload
    length. *)
Definition padding_rounds_data_length (payload_length max_frame_payload_bytes : Z) : Prop :=
  forall padding,
    multi_frame_padding payload_length max_frame_payload_bytes = Ok padding ->
    let rem := payload_length mod max_frame_payload_bytes in
    if rem + 2 >=? max_frame_payload_bytes then padding = []
    else only_padding padding /\ rounds_up_within (rem + 2) (len padding) max_frame_payload_bytes.

(** The serializer finishes without an exception. *)
Definition never_raises (fragmented_payload : list (list byte))
           (max_frame_payload_bytes : Z) : Prop :=
  forall cid tid lb,
    outcome (serialize_transfer cid tid fragmented_payload max_frame_payload_bytes lb) = Ok tt.

(** The bound that the assertion of the single-frame branch states, on the
    one frame of the transfer. *)
Definition one_frame_within_bounds (fragmented_payload : list (list byte))
           (max_frame_payload_bytes : Z) : Prop :=
  forall cid tid lb, exists f,
    yielded (serialize_transfer cid tid fragmented_payload max_frame_payload_bytes lb) = [f]
    /\ sum_len fragmented_payload <= len (padded_payload f) <= max_frame_payload_bytes.

(** ** The rest of the unit test: [run], [one] and the assertions *)

Module ResultMonad.

Definition rbind {A B : Type} (r : result A) (k : A -> result B) : result B :=
  match r with
  | Ok a => k a
  | Raise e => Raise e
  end.

Declare Scope result_scope.
Delimit Scope result_scope with result.
Notation "x <- m ;; k" := (rbind m (fun x => k))
  (at level 61, m at next level, right associativity) : result_scope.
Notation "m ;; k" := (rbind m (fun _ => k))
  (at level 61, right associativity) : result_scope.

End ResultMonad.
Import ResultMonad.

(** [list(items)] on a generator: its items, or the exception it raised. *)
Definition list_of_gen {Y : Type} (items : gen Y unit) : result (list Y) :=
  match outcome items with
  | Ok _ => Ok (yielded items)
  | Raise e => Raise e
  end.

(** [for x in source: body(x)] inside a generator, over a generator: the
    body runs for every item that [source] yields, in order, and an
    exception of [source] comes after the bodies of the items before it. *)
Definition for_gen {Y Z : Type} (source : gen Y unit) (body : Y -> gen Z unit)
  : gen Z unit :=
  bind (for_each (yielded source) body) (fun _ => lift (outcome source)).

(** [run] of the unit test: every frame of the serializer, compiled. *)
Definition run (compiled_identifier transfer_id : Z)
           (fragmented_payload : list (list byte))
           (max_frame_payload_bytes : Z) (loopback : bool)
  : gen Media.DataFrame unit :=
  for_gen (serialize_transfer compiled_identifier transfer_id fragmented_payload
                              max_frame_payload_bytes loopback)
          (fun f => (d <- lift (compile f) ;; yield d)%gen).

(** [one] of the unit test: [out, = list(items)]. *)
Definition one {A : Type} (items : gen A unit) : result A :=
  rbind (list_of_gen items) unpack_one.

(** [==] on bytes-like objects and on the frames of the media layer (a
    dataclass: field by field). *)
Fixpoint bytes_eqb (a b : list byte) : bool :=
  match a, b with
  | [], [] => true
  | x :: a', y :: b' => Byte.eqb x y && bytes_eqb a' b'
  | _, _ => false
  end.

Definition FrameFormat_eqb (a b : Media.FrameFormat) : bool :=
  match a, b with
  | Media.BASE, Media.BASE => true
  | Media.EXTENDED, Media.EXTENDED => true
  | _, _ => false
  end.

Definition DataFrame_eqb (a b : Media.DataFrame) : bool :=
  (Media.identifier a =? Media.identifier b)
  && bytes_eqb (Media.data a) (Media.data b)
  && FrameFormat_eqb (Media.format a) (Media.format b)
  && Bool.eqb (Media.loopback a) (Media.loopback b).

Fixpoint DataFrames_eqb (a b : list Media.DataFrame) : bool :=
  match a, b with
  | [], [] => true
  | x :: a', y :: b' => DataFrame_eqb x y && DataFrames_eqb a' b'
  | _, _ => false
  end.

(** The body of [_unittest_can_serialize_transfer], assertion by
    assertion; [mv] is [memoryview], which changes no byte. *)
Definition _unittest_can_serialize_transfer : result unit :=
  (expected <- mkf 0xbadc0fe Hello 0 true true true false ;;
   actual <- one (run 0xbadc0fe 32 [frag_Hell; frag_o] 7 false) ;;
   assert_ (DataFrame_eqb expected actual) ;;

   expected <- mkf 0xbadc0fe (bytes_range 60 ++ [x55; x55; x55]) 19 true true true true ;;
   actual <- one (run 0xbadc0fe (32 + 19) [bytes_range 60] 63 true) ;;
   assert_ (DataFrame_eqb expected actual) ;;

   let crc := CRC16CCITT.add CRC16CCITT.INITIAL (bytes_range 0x1E) in
   assert_ (crc =? 0x3554) ;;
   expected <- all_ok
     [mkf 0xbadc0fe [x00; x01; x02; x03; x04; x05; x06] 19 true false true false;
      mkf 0xbadc0fe [x07; x08; x09; x0a; x0b; x0c; x0d] 19 false false false false;
      mkf 0xbadc0fe [x0e; x0f; x10; x11; x12; x13; x14] 19 false false true false;
      mkf 0xbadc0fe [x15; x16; x17; x18; x19; x1a; x1b] 19 false false false false;
      mkf 0xbadc0fe [x1c; x1d; x35; x54] 19 false true true false] ;;
   actual <- list_of_gen (run 0xbadc0fe 323219 [bytes_range 0x1E] 7 false) ;;
   assert_ (DataFrames_eqb expected actual) ;;

   let crc := CRC16CCITT.add CRC16CCITT.INITIAL (bytes_range 0x1D) in
   assert_ (crc =? 0xC46F) ;;
   expected <- all_ok
     [mkf 123456 [x00; x01; x02; x03; x04; x05; x06; x07; x08; x09; x0a; x0b; x0c; x0d; x0e]
          19 true false true true;
      mkf 123456 [x0f; x10; x11; x12; x13; x14; x15; x16; x17; x18; x19; x1a; x1b; x1c; xc4]
          19 false false false true;
      mkf 123456 [x6f] 19 false true true true] ;;
   actual <- list_of_gen (run 123456 32323219 [bytes_range 0x1D] 15 true) ;;
   assert_ (DataFrames_eqb expected actual) ;;

   let crc := CRC16CCITT.add CRC16CCITT.INITIAL (bytes_range 0x1E ++ [x55]) in
   assert_ (crc =? 0x38A6) ;;
   expected <- all_ok
     [mkf 123456 [x00; x01; x02; x03; x04; x05; x06; x07; x08; x09; x0a]
          19 true false true false;
      mkf 123456 [x0b; x0c; x0d; x0e; x0f; x10; x11; x12; x13; x14; x15]
          19 false false false false;
      mkf 123456 [x16; x17; x18; x19; x1a; x1b; x1c; x1d; x55; x38; xa6]
          19 false true true false] ;;
   actual <- list_of_gen (run 123456 32323219 [bytes_range 0x1E] 11 false) ;;
   assert_ (DataFrames_eqb expected actual))%result.

(** ** [_uid] of [tests/application/plug_and_play.py] *)

Module PlugAndPlay.

Import Ascii String.

(** What [_uid] can raise: the [ValueError] of [bytes.fromhex], with the
    position it reports, and the [AssertionError] of the length check. *)
Inductive uid_exn : Type :=
| FromhexValueError (position : nat)
| UidAssertionError.

(** ASCII whitespace, which [bytes.fromhex] skips between bytes. *)
Definition is_space (c : ascii) : bool :=
  let n := N_of_ascii c in
  ((n =? 32) || (n =? 9) || (n =? 10) || (n =? 11) || (n =? 12) || (n =? 13))%N.

(** The value of a hexadecimal digit, of either case. *)
Definition digit_value (c : ascii) : option N :=
  let n := N_of_ascii c in
  if ((48 <=? n) && (n <=? 57))%N then Some (n - 48)%N
  else if ((97 <=? n) && (n <=? 102))%N then Some (n - 87)%N
  else if ((65 <=? n) && (n <=? 70))%N then Some (n - 55)%N
  else None.

Definition byte_of_digits (top bot : N) : byte :=
  match Byte.of_N (16 * top + bot) with
  | Some b => b
  | None => x00
  end.

(** [bytes.fromhex]: whitespace is skipped before a byte; a byte is two
    hexadecimal digits next to each other; anything else is a
    [ValueError] at the position of the offending character (the end of
    the string for a lone last digit). *)
Fixpoint fromhex_at (position : nat) (s : string) : uid_exn + list byte :=
  match s with
  | EmptyString => inr []
  | String c rest =>
      if is_space c then fromhex_at (S position) rest
      else
        match digit_value c with
        | None => inl (FromhexValueError position)
        | Some top =>
            match rest with
            | EmptyString => inl (FromhexValueError (S position))
            | String c' rest' =>
                match digit_value c' with
                | None => inl (FromhexValueError (S position))
                | Some bot =>
                    match fromhex_at (S (S position)) rest' with
                    | inl e => inl e
                    | inr out => inr (byte_of_digits top bot :: out)
                    end
                end
            end
        end
  end.

Definition fromhex (s : string) : uid_exn + list byte := fromhex_at 0 s.

Definition _uid (as_hex : string) : uid_exn + list byte :=
  match fromhex as_hex with
  | inl e => inl e
  | inr out => if (List.length out =? 16)%nat then inr out else inl UidAssertionError
  end.

(** [bytes.hex()], and the same digits in upper case, to state what
    [_uid] reads back. *)
Definition hex_digit (upper : bool) (n : N) : ascii :=
  ascii_of_N (if (n <? 10)%N then 48 + n else (if upper then 55 else 87) + n).

Fixpoint hex_of (upper : bool) (data : list byte) : string :=
  match data with
  | [] => EmptyString
  | b :: rest =>
      String (hex_digit upper (Byte.to_N b / 16))
             (String (hex_digit upper (Byte.to_N b mod 16)) (hex_of upper rest))
  end.

(** A string of hexadecimal digits only. *)
Fixpoint all_hex_digits (s : string) : bool :=
  match s with
  | EmptyString => true
  | String c rest =>
      match digit_value c with
      | Some _ => all_hex_digits rest
      | None => false
      end
  end.

End PlugAndPlay.

(** [d] is what [f] compiles to: the same identifier and loopback flag,
    the padded payload, and one tail byte with the flags in bits 7, 6, 5
    and the transfer id modulo 32 below them. *)
Definition compiles_to (f : UAVCANFrame) (d : Media.DataFrame) : Prop :=
  exists t,
    d = Media.mkDataFrame (identifier f) (padded_payload f ++ [t]) Media.EXTENDED (loopback f)
    /\ byte_to_Z t
       = set_flag (toggle_bit f) 5
           (set_flag (end_of_transfer f) 6
              (set_flag (start_of_transfer f) 7 (transfer_id f mod 32))).

(** * Properties *)

(** ** Bytes and integers *)

Lemma len_app {A : Type} (a b : list A) : len (a ++ b) = len a + len b.
Proof. unfold len. rewrite length_app. lia. Qed.

Lemma len_nonneg {A : Type} (l : list A) : 0 <= len l.
Proof. unfold len. lia. Qed.

Lemma byte_to_Z_range (b : byte) : 0 <= byte_to_Z b < 256.
Proof.
  unfold byte_to_Z. pose proof (Byte.to_N_bounded b) as H. lia.
Qed.

Lemma byte_of_int_ok (v : Z) :
  0 <= v < 256 -> exists b, byte_of_int v = Ok b /\ byte_to_Z b = v.
Proof.
  intros Hv. unfold byte_of_int.
  replace ((0 <=? v) && (v <? 256)) with true
    by (symmetry; apply andb_true_iff; split; [apply Z.leb_le | apply Z.ltb_lt]; lia).
  destruct (Byte.of_N (Z.to_N v)) as [b|] eqn:E.
  - exists b. split; [reflexivity|].
    apply Byte.to_of_N in E. unfold byte_to_Z. rewrite E. lia.
  - apply Byte.of_N_None_iff in E. lia.
Qed.

Lemma bytes_mul_padding (n : Z) :
  bytes_mul _PADDING_PATTERN n = repeat x55 (Z.to_nat n).
Proof.
  unfold bytes_mul, _PADDING_PATTERN.
  induction (Z.to_nat n) as [|k IH]; simpl; [reflexivity | now rewrite IH].
Qed.

Lemma sum_len_concat (frags : list (list byte)) : sum_len frags = len (concat frags).
Proof.
  unfold sum_len. induction frags as [|f rest IH]; simpl; [reflexivity|].
  rewrite len_app, IH. reflexivity.
Qed.

(** ** The DLC table *)

Lemma dlc_ceil_spec (n d : Z) :
  dlc_ceil n = Some d ->
  dlc_legal d /\ n <= d /\ (forall m, dlc_legal m -> n <= m -> d <= m).
Proof.
  unfold dlc_ceil, dlc_legal, LEGAL_DATA_LENGTHS. cbn [find In]. intros H.
  repeat match type of H with
         | (if ?a <=? ?c then _ else _) = _ =>
             destruct (Z.leb_spec a c);
             [ injection H as <-; repeat split; [tauto | lia | intros m Hm ?; intuition lia] | ]
         end.
  discriminate.
Qed.

Lemma dlc_ceil_defined (n : Z) : n <= 64 -> exists d, dlc_ceil n = Some d.
Proof.
  intros Hn. unfold dlc_ceil, LEGAL_DATA_LENGTHS. cbn [find].
  repeat match goal with
         | |- exists d, (if ?a <=? ?c then _ else _) = _ =>
             destruct (Z.leb_spec a c); [eexists; reflexivity | ]
         end.
  lia.
Qed.

Lemma dlc_legal_le_64 (m : Z) : dlc_legal m -> 0 <= m <= 64.
Proof. unfold dlc_legal, LEGAL_DATA_LENGTHS. cbn [In]. intuition lia. Qed.

Lemma dlc_legalb_spec (n : Z) : dlc_legalb n = true <-> dlc_legal n.
Proof.
  unfold dlc_legalb, dlc_legal. rewrite existsb_exists. split.
  - intros (x & Hx & E). apply Z.eqb_eq in E. now subst.
  - intros H. exists n. split; [assumption | apply Z.eqb_refl].
Qed.

(** The padding never overshoots a legal frame length that the data, with
    its tail byte, fits in. *)
Lemma padding_fits (data_length bound : Z) :
  dlc_legal (bound + 1) -> data_length <= bound ->
  exists n, get_required_padding data_length = Ok n
            /\ 0 <= n /\ data_length + n <= bound.
Proof.
  intros Hlegal Hle. unfold get_required_padding.
  destruct (dlc_ceil_defined (data_length + 1)) as [d Hd].
  { pose proof (dlc_legal_le_64 _ Hlegal). lia. }
  rewrite Hd. apply dlc_ceil_spec in Hd. destruct Hd as (_ & Hge & Hmin).
  specialize (Hmin _ Hlegal ltac:(lia)).
  eexists. split; [reflexivity | lia].
Qed.

Lemma get_required_padding_spec (data_length n : Z) :
  get_required_padding data_length = Ok n ->
  0 <= n /\ dlc_legal (data_length + n + 1)
  /\ (forall m, dlc_legal m -> data_length + 1 <= m -> data_length + n + 1 <= m).
Proof.
  unfold get_required_padding.
  destruct (dlc_ceil (data_length + 1)) as [d|] eqn:Hd; [|discriminate].
  intros [= <-]. apply dlc_ceil_spec in Hd. destruct Hd as (Hl & Hge & Hmin).
  replace (data_length + (d - (data_length + 1)) + 1) with d by lia.
  repeat split; [lia | assumption | assumption].
Qed.

(** ** The CRC engine *)

Lemma shift_bit_range (crc : Z) : 0 <= CRC16CCITT.shift_bit crc < 65536.
Proof.
  unfold CRC16CCITT.shift_bit.
  change 0xFFFF with (Z.ones 16).
  destruct (Z.testbit crc 15); rewrite Z.land_ones by lia;
    change (2 ^ 16) with 65536; apply Z.mod_pos_bound; lia.
Qed.

Lemma add_byte_range (crc : Z) (b : byte) : 0 <= CRC16CCITT.add_byte crc b < 65536.
Proof. unfold CRC16CCITT.add_byte. apply shift_bit_range. Qed.

Lemma crc_add_range (data : list byte) (crc : Z) :
  0 <= crc < 65536 -> 0 <= CRC16CCITT.add crc data < 65536.
Proof.
  unfold CRC16CCITT.add. revert crc.
  induction data as [|b rest IH]; intros crc Hc; simpl; [assumption|].
  apply IH, add_byte_range.
Qed.

Lemma crc_of_bytes_range (data : list byte) : 0 <= CRC16CCITT.of_bytes data < 65536.
Proof. apply crc_add_range. unfold CRC16CCITT.INITIAL. lia. Qed.

Lemma crc_add_app (a b : list byte) (crc : Z) :
  CRC16CCITT.add crc (a ++ b) = CRC16CCITT.add (CRC16CCITT.add crc a) b.
Proof. unfold CRC16CCITT.add. apply fold_left_app. Qed.

(** Feeding the fragments one by one, then the padding, is feeding the
    concatenation. *)
Lemma transfer_crc_concat (frags : list (list byte)) (padding : list byte) :
  transfer_crc frags padding = CRC16CCITT.of_bytes (concat frags ++ padding).
Proof.
  unfold transfer_crc, CRC16CCITT.of_bytes. rewrite crc_add_app. f_equal.
  generalize CRC16CCITT.INITIAL.
  induction frags as [|f rest IH]; intros crc; simpl; [reflexivity|].
  rewrite crc_add_app. apply IH.
Qed.

Lemma transfer_crc_range (frags : list (list byte)) (padding : list byte) :
  0 <= transfer_crc frags padding < 65536.
Proof. rewrite transfer_crc_concat. apply crc_of_bytes_range. Qed.

(** The two CRC bytes always fit [bytes(...)], and read back big-endian. *)
Lemma crc_bytes_ok (crc : Z) :
  0 <= crc < 65536 ->
  exists hi lo, bytes_of_ints [Z.shiftr crc 8; Z.land crc 0xFF] = Ok [hi; lo]
                /\ byte_to_Z hi = crc / 256 /\ byte_to_Z lo = crc mod 256.
Proof.
  intros Hc.
  assert (Hs : Z.shiftr crc 8 = crc / 256) by (rewrite Z.shiftr_div_pow2 by lia; reflexivity).
  assert (Hl : Z.land crc 0xFF = crc mod 256)
    by (change 0xFF with (Z.ones 8); rewrite Z.land_ones by lia; reflexivity).
  rewrite Hs, Hl.
  destruct (byte_of_int_ok (crc / 256)) as (hi & Ehi & Hhi).
  { split; [apply Z.div_pos; lia | apply Z.div_lt_upper_bound; lia]. }
  destruct (byte_of_int_ok (crc mod 256)) as (lo & Elo & Hlo).
  { apply Z.mod_pos_bound. lia. }
  exists hi, lo. cbn [bytes_of_ints]. rewrite Ehi, Elo. auto.
Qed.

(** ** The generator monad *)

Lemma bind_lift_Ok {Y R S} (r : R) (k : R -> gen Y S) : bind (lift (Ok r)) k = k r.
Proof. unfold bind, lift. simpl. destruct (k r). reflexivity. Qed.

Lemma bind_lift_Raise {Y R S} (e : exn) (k : R -> gen Y S) :
  bind (lift (Raise e)) k = raise e.
Proof. reflexivity. Qed.

Lemma for_each_yield {Y A} (f : A -> Y) (body : A -> gen Y unit) (xs : list A) :
  (forall x, body x = yield (f x)) ->
  for_each xs body = Gen (map f xs) (Ok tt).
Proof.
  intros Hbody. induction xs as [|x rest IH]; simpl; [reflexivity|].
  rewrite Hbody, IH. reflexivity.
Qed.

(** ** The refragmenter *)

Section Chunks.
Context {A : Type}.
Implicit Types (k : nat) (stream : list A).

Lemma chunks_concat k stream : concat (Util.chunks k stream) = stream.
Proof.
  funelim (Util.chunks k stream); simp chunks; [reflexivity|].
  cbn [concat firstn]. rewrite H. cbn [app]. now rewrite firstn_skipn.
Qed.

Lemma chunks_bounds k stream :
  Forall (fun c => (1 <= length c <= S k)%nat) (Util.chunks k stream).
Proof.
  funelim (Util.chunks k stream); simp chunks; constructor; [|assumption].
  cbn [firstn length]. pose proof (length_firstn k rest). lia.
Qed.

Lemma chunks_single k stream :
  stream <> [] -> (length stream <= S k)%nat -> Util.chunks k stream = [stream].
Proof.
  intros Hne Hlen. destruct stream as [|x rest]; [congruence|].
  simp chunks. cbn [length] in Hlen.
  rewrite (skipn_all2 rest) by lia. rewrite (firstn_all2 (x :: rest)) by (cbn [length]; lia).
  simp chunks. reflexivity.
Qed.

Lemma chunks_many k stream :
  (S k < length stream)%nat ->
  exists c0 c1 cs, Util.chunks k stream = c0 :: c1 :: cs /\ length c0 = S k.
Proof.
  intros Hlen. destruct stream as [|x rest]; [cbn in Hlen; lia|].
  simp chunks. cbn [length] in Hlen.
  destruct (skipn k rest) as [|y rest'] eqn:E.
  - pose proof (length_skipn k rest) as Hs. rewrite E in Hs. cbn in Hs. lia.
  - simp chunks. do 3 eexists. split; [reflexivity|].
    cbn [firstn length]. rewrite length_firstn. lia.
Qed.

(** Every chunk but the last one is full. *)
Lemma chunks_full k stream :
  Forall (fun c => length c = S k) (removelast (Util.chunks k stream)).
Proof.
  funelim (Util.chunks k stream); simp chunks; [constructor|].
  destruct (skipn k rest) as [|y rest'] eqn:E.
  - simp chunks. constructor.
  - simp chunks in *. cbn [removelast]. constructor; [|exact H].
    cbn [firstn length]. rewrite length_firstn.
    pose proof (length_skipn k rest) as Hs. rewrite E in Hs. cbn in Hs. lia.
Qed.

End Chunks.

Lemma refragment_chunks (frags : list (list byte)) (trailing : list byte) (M : Z) :
  1 <= M ->
  Util.refragment (frags ++ [trailing]) M
  = Util.chunks (Z.to_nat (M - 1)) (concat frags ++ trailing).
Proof.
  intros HM. unfold Util.refragment.
  replace (Z.to_nat M) with (S (Z.to_nat (M - 1))) by lia.
  rewrite concat_app. cbn [concat]. now rewrite app_nil_r.
Qed.

(** ** [mark_last] and [enumerate] *)

Lemma mark_last_length {A} (items : list A) :
  length (Util.mark_last items) = length items.
Proof.
  induction items as [|x [|y rest] IH]; [reflexivity | reflexivity |].
  change (S (length (Util.mark_last (y :: rest))) = S (length (y :: rest))).
  now rewrite IH.
Qed.

Lemma mark_last_map_snd {A} (items : list A) :
  map snd (Util.mark_last items) = items.
Proof.
  induction items as [|x [|y rest] IH]; [reflexivity | reflexivity |].
  change (x :: map snd (Util.mark_last (y :: rest)) = x :: y :: rest).
  now rewrite IH.
Qed.

Lemma mark_last_nth {A} (items : list A) (i : nat) last x :
  nth_error (Util.mark_last items) i = Some (last, x) ->
  nth_error items i = Some x /\ last = (S i =? length items)%nat.
Proof.
  revert i. induction items as [|a [|b rest] IH]; intros i H.
  - destruct i; discriminate.
  - destruct i as [|[|i]]; try discriminate. injection H as <- <-. auto.
  - change (Util.mark_last (a :: b :: rest))
      with ((false, a) :: Util.mark_last (b :: rest)) in H.
    destruct i as [|i].
    + injection H as <- <-. auto.
    + cbn [nth_error] in H. apply IH in H. destruct H as [H1 ->].
      split; [exact H1 | reflexivity].
Qed.

Lemma enumerate_from_length {A} (items : list A) (start : Z) :
  length (Util.enumerate_from start items) = length items.
Proof.
  revert start. induction items as [|x rest IH]; intros start; simpl; [reflexivity|].
  now rewrite IH.
Qed.

Lemma enumerate_from_nth {A} (items : list A) (start : Z) (i : nat) idx x :
  nth_error (Util.enumerate_from start items) i = Some (idx, x) ->
  idx = start + Z.of_nat i /\ nth_error items i = Some x.
Proof.
  revert start i. induction items as [|a rest IH]; intros start i H.
  - destruct i; discriminate.
  - destruct i as [|i]; cbn [Util.enumerate_from nth_error] in H.
    + injection H as <- <-. split; [lia | reflexivity].
    + apply IH in H. destruct H as [-> H]. split; [lia | exact H].
Qed.

(** ** The two branches of [serialize_transfer] *)

Lemma frame_of_payloads cid tid lb (cs : list (list byte)) (start : Z) :
  map padded_payload (map (frame_of cid tid lb) (Util.enumerate_from start (Util.mark_last cs)))
  = cs.
Proof.
  rewrite <- (mark_last_map_snd cs) at 2.
  generalize (Util.mark_last cs) as ms. intros ms. revert start.
  induction ms as [|[last c] rest IH]; intros start; [reflexivity|].
  cbn [Util.enumerate_from map frame_of padded_payload snd]. now rewrite IH.
Qed.

(** The single-frame branch, when the padded payload fits one chunk. *)
Lemma serialize_single cid tid frags M lb n :
  1 <= M -> 1 <= sum_len frags <= M ->
  get_required_padding (sum_len frags) = Ok n ->
  sum_len frags + n <= M ->
  serialize_transfer cid tid frags M lb
  = Gen [mkUAVCANFrame cid (concat frags ++ repeat x55 (Z.to_nat n)) tid true true true lb]
        (Ok tt).
Proof.
  intros HM [HL1 HL] Hpad Hfit.
  pose proof (get_required_padding_spec _ _ Hpad) as (Hn & _).
  unfold serialize_transfer.
  replace (M <? 1) with false by (symmetry; apply Z.ltb_ge; lia).
  replace (sum_len frags <=? M) with true by (symmetry; apply Z.leb_le; lia).
  rewrite Hpad, bind_lift_Ok, refragment_chunks, bytes_mul_padding by assumption.
  rewrite sum_len_concat in *.
  assert (Hlen : len (concat frags ++ repeat x55 (Z.to_nat n)) = len (concat frags) + n).
  { rewrite len_app. unfold len at 2. rewrite repeat_length. lia. }
  rewrite chunks_single.
  - cbn [unpack_one]. rewrite bind_lift_Ok, Hlen.
    replace ((len (concat frags) + n <=? M) && (len (concat frags) <=? len (concat frags) + n))
      with true
      by (symmetry; apply andb_true_iff; split; apply Z.leb_le; lia).
    cbn [assert_]. now rewrite bind_lift_Ok.
  - intros E. rewrite E in Hlen. unfold len in Hlen at 1. cbn in Hlen. lia.
  - unfold len in Hlen, Hfit. lia.
Qed.

(** The single-frame branch, when the padding pushes the payload past the
    frame capacity: the one-item unpacking has two chunks to take. *)
Lemma serialize_single_overlong cid tid frags M lb n :
  1 <= M -> sum_len frags <= M ->
  get_required_padding (sum_len frags) = Ok n ->
  M < sum_len frags + n ->
  serialize_transfer cid tid frags M lb = raise (ValueError UnpackTooMany).
Proof.
  intros HM HL Hpad Hfit.
  pose proof (get_required_padding_spec _ _ Hpad) as (Hn & _).
  unfold serialize_transfer.
  replace (M <? 1) with false by (symmetry; apply Z.ltb_ge; lia).
  replace (sum_len frags <=? M) with true by (symmetry; apply Z.leb_le; lia).
  rewrite Hpad, bind_lift_Ok, refragment_chunks, bytes_mul_padding by assumption.
  rewrite sum_len_concat in *.
  destruct (chunks_many (Z.to_nat (M - 1)) (concat frags ++ repeat x55 (Z.to_nat n)))
    as (c0 & c1 & cs & E & _).
  { rewrite length_app, repeat_length. unfold len in Hfit. lia. }
  rewrite E. reflexivity.
Qed.

(** The multi-frame branch, whenever its padding is defined. *)
Lemma serialize_multi cid tid frags M lb padding :
  1 <= M -> M < sum_len frags ->
  multi_frame_padding (sum_len frags) M = Ok padding ->
  exists hi lo,
    byte_to_Z hi = CRC16CCITT.of_bytes (concat frags ++ padding) / 256
    /\ byte_to_Z lo = CRC16CCITT.of_bytes (concat frags ++ padding) mod 256
    /\ serialize_transfer cid tid frags M lb
       = Gen (map (frame_of cid tid lb)
                  (Util.enumerate
                     (Util.mark_last
                        (Util.chunks (Z.to_nat (M - 1))
                                     (concat frags ++ padding ++ [hi; lo])))))
             (Ok tt).
Proof.
  intros HM HL Hpad.
  destruct (crc_bytes_ok _ (transfer_crc_range frags padding)) as (hi & lo & Eb & Hhi & Hlo).
  exists hi, lo. rewrite <- transfer_crc_concat. repeat split; [assumption | assumption |].
  unfold serialize_transfer.
  replace (M <? 1) with false by (symmetry; apply Z.ltb_ge; lia).
  replace (sum_len frags <=? M) with false by (symmetry; apply Z.leb_gt; lia).
  rewrite Hpad, bind_lift_Ok, Eb, bind_lift_Ok, refragment_chunks by assumption.
  apply for_each_yield. intros [index [last frag]]. reflexivity.
Qed.

(** Whatever the input, an exception leaves no frame behind it, and the
    assertion of the single-frame branch is never the statement that
    raises. *)
Lemma serialize_transfer_raises cid tid frags M lb e :
  outcome (serialize_transfer cid tid frags M lb) = Raise e ->
  yielded (serialize_transfer cid tid frags M lb) = [] /\ e <> AssertionError.
Proof.
  unfold serialize_transfer.
  destruct (Z.ltb_spec M 1) as [HM|HM].
  { cbn. intros [= <-]. split; [reflexivity | discriminate]. }
  destruct (Z.leb_spec (sum_len frags) M) as [HL|HL].
  - destruct (get_required_padding (sum_len frags)) as [n|e'] eqn:Hpad.
    2:{ rewrite bind_lift_Raise. cbn. intros [= <-]. split; [reflexivity|].
        unfold get_required_padding in Hpad.
        destruct (dlc_ceil (sum_len frags + 1)); [discriminate|].
        injection Hpad as <-. discriminate. }
    rewrite bind_lift_Ok, refragment_chunks, bytes_mul_padding by assumption.
    set (stream := concat frags ++ repeat x55 (Z.to_nat n)).
    pose proof (chunks_concat (Z.to_nat (M - 1)) stream) as Hcat.
    pose proof (chunks_bounds (Z.to_nat (M - 1)) stream) as Hb.
    destruct (Util.chunks (Z.to_nat (M - 1)) stream) as [|c [|c' cs]].
    + cbn. intros [= <-]. split; [reflexivity | discriminate].
    + cbn [unpack_one]. rewrite bind_lift_Ok.
      cbn [concat] in Hcat. rewrite app_nil_r in Hcat. subst c.
      apply Forall_inv in Hb.
      replace ((len stream <=? M) && (sum_len frags <=? len stream)) with true.
      * cbn [assert_]. rewrite bind_lift_Ok. cbn. discriminate.
      * symmetry. apply andb_true_iff. split; apply Z.leb_le.
        -- unfold len. lia.
        -- rewrite sum_len_concat. subst stream. rewrite len_app.
           pose proof (len_nonneg (repeat x55 (Z.to_nat n))). lia.
    + cbn. intros [= <-]. split; [reflexivity | discriminate].
  - destruct (multi_frame_padding (sum_len frags) M) as [padding|e'] eqn:Hpad.
    + destruct (serialize_multi cid tid frags M lb padding) as (hi & lo & _ & _ & E);
        try assumption; try lia.
      unfold serialize_transfer in E.
      replace (M <? 1) with false in E by (symmetry; apply Z.ltb_ge; lia).
      replace (sum_len frags <=? M) with false in E by (symmetry; apply Z.leb_gt; lia).
      rewrite Hpad in E. rewrite E. cbn. discriminate.
    + rewrite bind_lift_Raise. cbn. intros [= <-]. split; [reflexivity|].
      unfold multi_frame_padding in Hpad.
      destruct (_ >=? _); [discriminate|].
      unfold get_required_padding in Hpad.
      destruct (dlc_ceil _); [discriminate|]. injection Hpad as <-. discriminate.
Qed.

(** The single-frame branch on an empty payload: nothing to pad (one tail
    byte is a legal frame), nothing to re-chunk, and the one-item unpacking
    has no chunk to take. *)
Lemma serialize_single_empty cid tid frags M lb :
  1 <= M -> sum_len frags = 0 ->
  serialize_transfer cid tid frags M lb = raise (ValueError (UnpackTooFew 0)).
Proof.
  intros HM HL. unfold serialize_transfer.
  replace (M <? 1) with false by (symmetry; apply Z.ltb_ge; lia).
  replace (sum_len frags <=? M) with true by (symmetry; apply Z.leb_le; lia).
  rewrite HL. cbn [get_required_padding dlc_ceil LEGAL_DATA_LENGTHS find Z.add Z.leb Z.compare
                   Pos.compare Pos.compare_cont Z.sub Z.opp Z.pos_sub].
  rewrite bind_lift_Ok, refragment_chunks, bytes_mul_padding by assumption.
  rewrite sum_len_concat in HL.
  assert (E : concat frags = []).
  { destruct (concat frags); [reflexivity | unfold len in HL; cbn in HL; lia]. }
  rewrite E. cbn [Z.to_nat repeat app]. simp chunks. reflexivity.
Qed.

(** The runs that finish: one padded chunk, or the chunks of payload,
    padding and CRC. *)
Lemma serialize_transfer_completes cid tid frags M lb :
  outcome (serialize_transfer cid tid frags M lb) = Ok tt ->
  (1 <= sum_len frags <= M
   /\ exists n, 0 <= n /\ sum_len frags + n <= M
                /\ get_required_padding (sum_len frags) = Ok n
                /\ serialize_transfer cid tid frags M lb
                   = Gen [mkUAVCANFrame cid (concat frags ++ repeat x55 (Z.to_nat n)) tid
                                        true true true lb] (Ok tt))
  \/ (1 <= M < sum_len frags
      /\ exists padding hi lo,
          multi_frame_padding (sum_len frags) M = Ok padding
          /\ byte_to_Z hi = CRC16CCITT.of_bytes (concat frags ++ padding) / 256
          /\ byte_to_Z lo = CRC16CCITT.of_bytes (concat frags ++ padding) mod 256
          /\ serialize_transfer cid tid frags M lb
             = Gen (map (frame_of cid tid lb)
                        (Util.enumerate
                           (Util.mark_last
                              (Util.chunks (Z.to_nat (M - 1))
                                           (concat frags ++ padding ++ [hi; lo])))))
                   (Ok tt)).
Proof.
  intros Ho.
  destruct (Z.ltb_spec M 1) as [HM|HM].
  { unfold serialize_transfer in Ho.
    replace (M <? 1) with true in Ho by (symmetry; apply Z.ltb_lt; lia). discriminate. }
  destruct (Z.leb_spec (sum_len frags) M) as [HL|HL].
  - left.
    destruct (get_required_padding (sum_len frags)) as [n|e] eqn:Hpad.
    2:{ unfold serialize_transfer in Ho.
        replace (M <? 1) with false in Ho by (symmetry; apply Z.ltb_ge; lia).
        replace (sum_len frags <=? M) with true in Ho by (symmetry; apply Z.leb_le; lia).
        rewrite Hpad in Ho. discriminate. }
    destruct (Z.eq_dec (sum_len frags) 0) as [H0|H0].
    { rewrite serialize_single_empty in Ho by assumption. discriminate. }
    assert (HL1 : 1 <= sum_len frags).
    { rewrite sum_len_concat in *. pose proof (len_nonneg (concat frags)). lia. }
    destruct (Z_le_gt_dec (sum_len frags + n) M) as [Hfit|Hfit].
    + split; [lia|]. exists n.
      pose proof (get_required_padding_spec _ _ Hpad) as (Hn & _).
      repeat split; try assumption.
      apply serialize_single; (assumption || lia).
    + rewrite (serialize_single_overlong cid tid frags M lb n) in Ho by (assumption || lia).
      discriminate.
  - right. split; [lia|].
    destruct (multi_frame_padding (sum_len frags) M) as [padding|e] eqn:Hpad.
    + destruct (serialize_multi cid tid frags M lb padding) as (hi & lo & Hhi & Hlo & E);
        try assumption.
      exists padding, hi, lo. auto.
    + unfold serialize_transfer in Ho.
      replace (M <? 1) with false in Ho by (symmetry; apply Z.ltb_ge; lia).
      replace (sum_len frags <=? M) with false in Ho by (symmetry; apply Z.leb_gt; lia).
      rewrite Hpad in Ho. discriminate.
Qed.

(** Every run of the serializer emits the frames of some chunk list, built
    the way the emission loop builds them; the single frame of the
    single-frame branch is the case of one chunk, and a run that raises is
    the case of none. *)
Lemma serialize_transfer_shape cid tid frags M lb :
  exists cs, yielded (serialize_transfer cid tid frags M lb)
             = map (frame_of cid tid lb) (Util.enumerate (Util.mark_last cs)).
Proof.
  destruct (outcome (serialize_transfer cid tid frags M lb)) as [[]|e] eqn:Ho.
  2:{ apply serialize_transfer_raises in Ho. destruct Ho as [-> _]. now exists []. }
  apply serialize_transfer_completes in Ho.
  destruct Ho as [(_ & n & _ & _ & _ & ->) | (_ & padding & hi & lo & _ & _ & _ & ->)].
  - now exists [concat frags ++ repeat x55 (Z.to_nat n)].
  - eexists. reflexivity.
Qed.

Lemma frames_length cid tid lb (cs : list (list byte)) :
  length (map (frame_of cid tid lb) (Util.enumerate (Util.mark_last cs))) = length cs.
Proof.
  unfold Util.enumerate.
  now rewrite length_map, enumerate_from_length, mark_last_length.
Qed.

Lemma frames_nth cid tid lb (cs : list (list byte)) (i : nat) f :
  nth_error (map (frame_of cid tid lb) (Util.enumerate (Util.mark_last cs))) i = Some f ->
  exists c, nth_error cs i = Some c
            /\ f = mkUAVCANFrame cid c tid (Z.of_nat i =? 0) (S i =? length cs)%nat
                                 (Z.of_nat i mod 2 =? 0) lb.
Proof.
  intros H. rewrite nth_error_map in H.
  destruct (nth_error (Util.enumerate (Util.mark_last cs)) i) as [[idx [last c]]|] eqn:E;
    [|discriminate].
  injection H as <-. apply enumerate_from_nth in E. destruct E as [-> E].
  apply mark_last_nth in E. destruct E as [E ->].
  exists c. split; [assumption | reflexivity].
Qed.

Lemma frames_fields cid tid lb (cs : list (list byte)) f :
  In f (map (frame_of cid tid lb) (Util.enumerate (Util.mark_last cs))) ->
  identifier f = cid /\ transfer_id f = tid /\ loopback f = lb.
Proof.
  intros H. apply in_map_iff in H. destruct H as ([idx [last c]] & <- & _).
  repeat split.
Qed.

(** The padding of the multi-frame branch is made of the padding pattern. *)
Lemma multi_frame_padding_pattern L M padding :
  multi_frame_padding L M = Ok padding ->
  exists n, 0 <= n /\ padding = repeat x55 (Z.to_nat n).
Proof.
  unfold multi_frame_padding.
  destruct (_ >=? _).
  - intros [= <-]. now exists 0.
  - destruct (get_required_padding _) as [n|e] eqn:E; [|discriminate].
    intros [= <-]. apply get_required_padding_spec in E. destruct E as (Hn & _).
    exists n. split; [assumption | apply bytes_mul_padding].
Qed.

(** A frame capacity that, with the tail byte, is a legal frame length
    always has a defined multi-frame padding. *)
Lemma multi_frame_padding_defined L M :
  1 <= M -> dlc_legal (M + 1) -> exists padding, multi_frame_padding L M = Ok padding.
Proof.
  intros HM Hlegal. unfold multi_frame_padding, TRANSFER_CRC_LENGTH_BYTES.
  destruct (Z.geb_spec (L mod M + 2) M) as [H|H]; [eexists; reflexivity|].
  destruct (padding_fits (L mod M + 2) M Hlegal) as (n & -> & _); [lia|].
  eexists; reflexivity.
Qed.

(** ** The tail byte *)

Lemma tail_value (sot eot tgl : bool) (t : Z) :
  0 <= t < 32 ->
  let v := set_flag tgl 5 (set_flag eot 6 (set_flag sot 7 t)) in
  0 <= v < 256
  /\ v = Z.lor (Z.lor (Z.lor (Z.shiftl (Z.b2z sot) 7) (Z.shiftl (Z.b2z eot) 6))
                     (Z.shiftl (Z.b2z tgl) 5)) t
  /\ Z.testbit v 7 = sot /\ Z.testbit v 6 = eot /\ Z.testbit v 5 = tgl
  /\ Z.land v 0x1F = t.
Proof.
  intros Ht.
  assert (E : exists n, (n < 32)%nat /\ t = Z.of_nat n)
    by (exists (Z.to_nat t); split; lia).
  destruct E as (n & Hn & ->). clear Ht.
  do 32 (destruct n as [|n];
         [destruct sot, eot, tgl; vm_compute; repeat split; easy |]).
  lia.
Qed.

(** Compilation never raises; it appends one byte, the tail. *)
Lemma compile_tail (f : UAVCANFrame) :
  exists t,
    compile f = Ok (Media.mkDataFrame (identifier f) (padded_payload f ++ [t]) Media.EXTENDED (loopback f))
    /\ byte_to_Z t
       = set_flag (toggle_bit f) 5
           (set_flag (end_of_transfer f) 6
              (set_flag (start_of_transfer f) 7 (transfer_id f mod 32))).
Proof.
  unfold compile, TRANSFER_ID_MODULO.
  destruct (tail_value (start_of_transfer f) (end_of_transfer f) (toggle_bit f)
                       (transfer_id f mod 32)) as (Hr & _).
  { apply Z.mod_pos_bound. lia. }
  destruct (byte_of_int_ok _ Hr) as (t & -> & Ht).
  exists t. split; [reflexivity | exact Ht].
Qed.

(** ** The reassembler *)

Lemma be16_join (hi lo : Z) :
  0 <= lo < 256 -> Z.lor (Z.shiftl hi 8) lo = hi * 256 + lo.
Proof.
  intros Hlo.
  assert (Hdisj : Z.land (Z.shiftl hi 8) lo = 0).
  { apply Z.bits_inj'. intros n Hn. rewrite Z.land_spec, Z.bits_0.
    destruct (Z.lt_ge_cases n 8) as [Hlt|Hge].
    - rewrite Z.shiftl_spec_low by assumption. reflexivity.
    - rewrite (Z.bits_above_log2 lo n), andb_false_r; [reflexivity | lia |].
      destruct (Z.eq_dec lo 0) as [->|Hne]; [cbn; lia|].
      apply Z.log2_lt_pow2; [lia|].
      eapply Z.lt_le_trans; [apply Hlo|].
      change 256 with (2 ^ 8). apply Z.pow_le_mono_r; lia. }
  rewrite <- Z.lxor_lor by assumption.
  rewrite <- Z.add_nocarry_lxor by assumption.
  rewrite Z.shiftl_mul_pow2 by lia. reflexivity.
Qed.

Lemma complete_delivers (body : list byte) (hi lo : byte) :
  byte_to_Z hi = CRC16CCITT.of_bytes body / 256 ->
  byte_to_Z lo = CRC16CCITT.of_bytes body mod 256 ->
  Reassembler.complete (body ++ [hi; lo]) = Reassembler.Delivered body.
Proof.
  intros Hhi Hlo. unfold Reassembler.complete.
  replace (length (body ++ [hi; lo]) - 2)%nat with (length body)
    by (rewrite length_app; cbn; lia).
  rewrite firstn_app, firstn_all, Nat.sub_diag, skipn_app, skipn_all, Nat.sub_diag.
  cbn [firstn skipn app Reassembler.crc_of_trailer]. rewrite app_nil_r.
  rewrite be16_join by apply byte_to_Z_range.
  rewrite Hhi, Hlo.
  replace (CRC16CCITT.of_bytes body / 256 * 256 + CRC16CCITT.of_bytes body mod 256)
    with (CRC16CCITT.of_bytes body)
    by (rewrite (Z.div_mod (CRC16CCITT.of_bytes body) 256) at 1; lia).
  now rewrite Z.eqb_refl.
Qed.

Lemma parity_step (i : Z) : ((i + 1) mod 2 =? 0) = negb (i mod 2 =? 0).
Proof.
  destruct (Z.eqb_spec ((i + 1) mod 2) 0), (Z.eqb_spec (i mod 2) 0);
    cbn; try reflexivity; exfalso; Z.div_mod_to_equations; lia.
Qed.

(** The continuation frames of a transfer, fed to a reception that has
    accumulated the earlier chunks: all pending, then the completion. *)
Lemma feed_continuations cid tid lb (cs : list (list byte)) :
  forall (i : Z) (accumulated : list byte),
    1 <= i -> cs <> [] ->
    Reassembler.feed_all
      (Reassembler.ACCUMULATING tid accumulated (i mod 2 =? 0))
      (map (frame_of cid tid lb) (Util.enumerate_from i (Util.mark_last cs)))
    = (Reassembler.IDLE,
       repeat Reassembler.Pending (length cs - 1)
       ++ [Reassembler.complete (accumulated ++ concat cs)]).
Proof.
  induction cs as [|c [|c' rest] IH]; intros i accumulated Hi Hne; [congruence | |].
  - cbn [Util.mark_last Util.enumerate_from map frame_of Reassembler.feed_all].
    unfold Reassembler.feed.
    cbn [start_of_transfer end_of_transfer toggle_bit transfer_id padded_payload].
    replace (i =? 0) with false by (symmetry; apply Z.eqb_neq; lia).
    rewrite Z.eqb_refl, Bool.eqb_reflx. cbn. now rewrite app_nil_r.
  - change (Util.mark_last (c :: c' :: rest))
      with ((false, c) :: Util.mark_last (c' :: rest)).
    cbn [Util.enumerate_from map frame_of Reassembler.feed_all].
    unfold Reassembler.feed at 1.
    cbn [start_of_transfer end_of_transfer toggle_bit transfer_id padded_payload].
    replace (i =? 0) with false by (symmetry; apply Z.eqb_neq; lia).
    rewrite Z.eqb_refl, Bool.eqb_reflx. cbn [negb].
    rewrite <- parity_step, IH by (lia || discriminate).
    cbn [length Nat.sub concat]. rewrite Nat.sub_0_r, <- app_assoc. reflexivity.
Qed.

(** A whole multi-chunk transfer fed to a fresh reception. *)
Lemma reassemble_frames cid tid lb (c0 c1 : list byte) (cs : list (list byte)) :
  Reassembler.reassemble
    (map (frame_of cid tid lb) (Util.enumerate (Util.mark_last (c0 :: c1 :: cs))))
  = repeat Reassembler.Pending (S (length cs))
    ++ [Reassembler.complete (concat (c0 :: c1 :: cs))].
Proof.
  unfold Reassembler.reassemble, Util.enumerate.
  change (Util.mark_last (c0 :: c1 :: cs))
    with ((false, c0) :: Util.mark_last (c1 :: cs)).
  cbn [Util.enumerate_from map frame_of Reassembler.feed_all].
  unfold Reassembler.feed at 1.
  cbn [start_of_transfer end_of_transfer toggle_bit transfer_id padded_payload
       Z.eqb Z.modulo Z.div_eucl negb Z.add].
  change (Reassembler.ACCUMULATING tid c0 false)
    with (Reassembler.ACCUMULATING tid c0 (1 mod 2 =? 0)).
  rewrite feed_continuations by (lia || discriminate).
  cbn [snd length Nat.sub repeat app concat]. now rewrite Nat.sub_0_r.
Qed.

(** With a frame capacity that, with the tail byte, is a legal frame
    length, every non-empty payload is serialized without an exception. *)
Lemma serialize_transfer_total cid tid frags M lb :
  1 <= M -> dlc_legal (M + 1) -> 1 <= sum_len frags ->
  outcome (serialize_transfer cid tid frags M lb) = Ok tt.
Proof.
  intros HM Hlegal HL.
  destruct (Z_le_gt_dec (sum_len frags) M) as [Hle|Hgt].
  - destruct (padding_fits (sum_len frags) M Hlegal Hle) as (n & Hpad & _ & Hfit).
    rewrite (serialize_single cid tid frags M lb n); (reflexivity || assumption || lia).
  - destruct (multi_frame_padding_defined (sum_len frags) M HM Hlegal) as (padding & Hpad).
    destruct (serialize_multi cid tid frags M lb padding) as (hi & lo & _ & _ & ->);
      (reflexivity || assumption || lia).
Qed.

Lemma carried_frames cid tid lb (cs : list (list byte)) :
  carried (map (frame_of cid tid lb) (Util.enumerate (Util.mark_last cs))) = concat cs.
Proof. unfold carried, Util.enumerate. now rewrite frame_of_payloads. Qed.

Lemma len_padded (frags : list (list byte)) (n : Z) :
  0 <= n -> len (concat frags ++ repeat x55 (Z.to_nat n)) = sum_len frags + n.
Proof.
  intros Hn. rewrite len_app, sum_len_concat. unfold len at 2.
  rewrite repeat_length. lia.
Qed.

(** The engine is CRC-16/CCITT-FALSE: it starts from 0xFFFF and has the
    catalogue's check value on the ASCII digits 1 to 9. *)
Example crc16ccitt_check_value :
  CRC16CCITT.of_bytes [] = 0xFFFF
  /\ CRC16CCITT.of_bytes [x31; x32; x33; x34; x35; x36; x37; x38; x39] = 0x29B1.
Proof. split; vm_compute; reflexivity. Qed.

(** The CRC values that the unit test asserts. *)
Example crc16ccitt_unit_test_values :
  CRC16CCITT.of_bytes (bytes_range 0x1E) = 0x3554
  /\ CRC16CCITT.of_bytes (bytes_range 0x1D) = 0xC46F
  /\ CRC16CCITT.of_bytes (bytes_range 0x1E ++ [x55]) = 0x38A6.
Proof. repeat split; vm_compute; reflexivity. Qed.

(** The test's payload is [bytes(range(0x1E))], the bytes 0 to 29; with the
    byte 30 included the CRC is another value. *)
Example crc16ccitt_with_byte_30 :
  CRC16CCITT.of_bytes (bytes_range 31) = 0xC109.
Proof. vm_compute. reflexivity. Qed.

(** One step of the engine: shift left within 16 bits, and subtract the
    polynomial 0x1021 when the bit shifted out was set. *)
Lemma shift_bit_polynomial (crc : Z) :
  CRC16CCITT.shift_bit crc
  = Z.land (Z.lxor (Z.shiftl crc 1) (if Z.testbit crc 15 then 0x1021 else 0)) 0xFFFF.
Proof.
  unfold CRC16CCITT.shift_bit, CRC16CCITT.POLYNOMIAL.
  destruct (Z.testbit crc 15); [reflexivity | now rewrite Z.lxor_0_r].
Qed.

(** With room for 10 payload bytes, a 9-byte payload is padded to 11 bytes
    and the one-chunk unpacking raises: the upper bound of the assertion is
    kept by the line before it. *)
Example overlong_padding_stops_at_unpacking :
  serialize_transfer 0 0 [bytes_range 9] 10 false = raise (ValueError UnpackTooMany).
Proof. vm_compute. reflexivity. Qed.

(** * The framing codec *)

(** ** Round trip *)

(** C1, as the spec words it, fails: with room for 10 payload bytes per
    frame, a 9-byte payload is padded to 11 bytes, the serializer raises
    before its first frame, and the reassembler has nothing to deliver. *)
Lemma roundtrip_counterexample :
  1 <= 10 /\ ~ delivers_payload [bytes_range 9] 10.
Proof.
  split; [lia|]. intros H.
  destruct (H 0 0 false) as (padding & _ & Hin).
  vm_compute in Hin. exact Hin.
Qed.

(** C1, amended.  Whenever [serialize_transfer] finishes without raising,
    feeding its frames in order to a fresh reception leaves every frame but
    the last pending and delivers, at the last frame, the concatenation of
    the input fragments followed by 0x55 padding bytes only.  It finishes
    for every non-empty payload when the frame capacity is at least one and,
    with the tail byte, a legal frame length. *)
Theorem reassemble_serialize_roundtrip cid tid frags M lb :
  (outcome (serialize_transfer cid tid frags M lb) = Ok tt ->
   exists n : nat,
     Reassembler.reassemble (yielded (serialize_transfer cid tid frags M lb))
     = repeat Reassembler.Pending
              (length (yielded (serialize_transfer cid tid frags M lb)) - 1)
       ++ [Reassembler.Delivered (concat frags ++ repeat x55 n)])
  /\ (1 <= M -> dlc_legal (M + 1) -> 1 <= sum_len frags ->
      outcome (serialize_transfer cid tid frags M lb) = Ok tt).
Proof.
  split; [|apply serialize_transfer_total].
  intros Ho. apply serialize_transfer_completes in Ho.
  destruct Ho as [(_ & n & _ & _ & _ & ->)
                 | ([HM HL] & padding & hi & lo & Hpad & Hhi & Hlo & ->)].
  - exists (Z.to_nat n). reflexivity.
  - destruct (multi_frame_padding_pattern _ _ _ Hpad) as (n & Hn & ->).
    exists (Z.to_nat n). cbn [yielded].
    set (stream := concat frags ++ repeat x55 (Z.to_nat n) ++ [hi; lo]).
    destruct (chunks_many (Z.to_nat (M - 1)) stream) as (c0 & c1 & cs & E & _).
    { subst stream. rewrite sum_len_concat in HL. unfold len in HL.
      rewrite !length_app. cbn [length]. lia. }
    pose proof (chunks_concat (Z.to_nat (M - 1)) stream) as Hcat.
    rewrite frames_length, E, reassemble_frames. rewrite E in Hcat. rewrite Hcat.
    cbn [length Nat.sub]. f_equal. f_equal.
    subst stream. rewrite app_assoc. now apply complete_delivers.
Qed.

Lemma reassemble_serialize_roundtrip_witness :
  exists n : nat,
    Reassembler.reassemble
      (yielded (serialize_transfer 123456 32323219 [bytes_range 30] 11 false))
    = repeat Reassembler.Pending
             (length (yielded (serialize_transfer 123456 32323219 [bytes_range 30] 11 false)) - 1)
      ++ [Reassembler.Delivered (concat [bytes_range 30] ++ repeat x55 n)].
Proof.
  apply (proj1 (reassemble_serialize_roundtrip 123456 32323219 [bytes_range 30] 11 false)).
  apply (proj2 (reassemble_serialize_roundtrip 123456 32323219 [bytes_range 30] 11 false)).
  - lia.
  - apply dlc_legalb_spec. vm_compute. reflexivity.
  - vm_compute. discriminate.
Defined.

(** ** Single-frame transfers *)

(** C2, as the spec words it, fails: nine bytes fit a frame capacity of
    nine, but their padding (to the 12-byte frame, tail byte included) does
    not, and no frame comes out. *)
Lemma single_frame_counterexample :
  sum_len [bytes_range 9] <= 9 /\ ~ emits_one_frame [bytes_range 9] 9.
Proof.
  split; [vm_compute; discriminate|]. intros H.
  destruct (H 0 0 false) as (f & Hf & _).
  vm_compute in Hf. discriminate.
Qed.

(** C2, amended.  A non-empty payload of at most [M] bytes whose padded
    length does not exceed [M] yields exactly one frame, with
    SOT = EOT = toggle = true, whose payload is the concatenated fragments
    followed by 0x55 padding only: no CRC.  The padded length never exceeds
    [M] when [M + 1], the frame capacity with its tail byte, is a legal
    frame length; a payload of exactly [M] bytes then needs no padding. *)
Theorem single_frame_transfer cid tid frags M lb :
  1 <= sum_len frags <= M ->
  (forall n, get_required_padding (sum_len frags) = Ok n ->
             sum_len frags + n <= M ->
             serialize_transfer cid tid frags M lb
             = Gen [mkUAVCANFrame cid (concat frags ++ repeat x55 (Z.to_nat n)) tid
                                  true true true lb] (Ok tt))
  /\ (dlc_legal (M + 1) ->
      exists n, get_required_padding (sum_len frags) = Ok n /\ sum_len frags + n <= M)
  /\ (dlc_legal (M + 1) -> sum_len frags = M ->
      get_required_padding (sum_len frags) = Ok 0).
Proof.
  intros HL. split; [|split].
  - intros n Hpad Hfit. apply serialize_single; (assumption || lia).
  - intros Hlegal.
    destruct (padding_fits (sum_len frags) M Hlegal) as (n & Hpad & _ & Hfit); [lia|].
    exists n. auto.
  - intros Hlegal HM.
    destruct (padding_fits (sum_len frags) M Hlegal) as (n & Hpad & Hn & Hfit); [lia|].
    rewrite Hpad. f_equal. lia.
Qed.

Lemma single_frame_transfer_witness :
  serialize_transfer 0xbadc0fe (32 + 19) [bytes_range 60] 63 true
  = Gen [mkUAVCANFrame 0xbadc0fe (concat [bytes_range 60] ++ repeat x55 (Z.to_nat 3))
                       (32 + 19) true true true true] (Ok tt).
Proof.
  apply (proj1 (single_frame_transfer 0xbadc0fe (32 + 19) [bytes_range 60] 63 true
                  ltac:(vm_compute; split; discriminate)) 3).
  - vm_compute. reflexivity.
  - vm_compute. discriminate.
Defined.

(** ** Multi-frame transfers *)

(** C3.  In a multi-frame transfer the frame at index [i] has
    start-of-transfer set iff [i = 0], end-of-transfer set iff it is the
    last frame, and its toggle bit set iff [i mod 2 = 0]; hence the toggle
    starts set and flips between neighbours.  A transfer that is emitted has
    at least two frames. *)
Theorem multi_frame_control_bits cid tid frags M lb :
  1 <= M -> M < sum_len frags ->
  (forall i f,
      nth_error (yielded (serialize_transfer cid tid frags M lb)) i = Some f ->
      start_of_transfer f = (i =? 0)%nat
      /\ end_of_transfer f
         = (S i =? length (yielded (serialize_transfer cid tid frags M lb)))%nat
      /\ toggle_bit f = (Z.of_nat i mod 2 =? 0))
  /\ (forall i f g,
         nth_error (yielded (serialize_transfer cid tid frags M lb)) i = Some f ->
         nth_error (yielded (serialize_transfer cid tid frags M lb)) (S i) = Some g ->
         toggle_bit g = negb (toggle_bit f))
  /\ (outcome (serialize_transfer cid tid frags M lb) = Ok tt ->
      (2 <= length (yielded (serialize_transfer cid tid frags M lb)))%nat).
Proof.
  intros HM HL.
  destruct (serialize_transfer_shape cid tid frags M lb) as (cs & E).
  assert (Hbits : forall i f,
             nth_error (yielded (serialize_transfer cid tid frags M lb)) i = Some f ->
             start_of_transfer f = (i =? 0)%nat
             /\ end_of_transfer f
                = (S i =? length (yielded (serialize_transfer cid tid frags M lb)))%nat
             /\ toggle_bit f = (Z.of_nat i mod 2 =? 0)).
  { intros i f Hf. rewrite E in Hf |- *. rewrite frames_length.
    apply frames_nth in Hf. destruct Hf as (c & _ & ->).
    cbn [start_of_transfer end_of_transfer toggle_bit].
    repeat split. destruct i; reflexivity. }
  split; [exact Hbits|]. split.
  - intros i f g Hf Hg.
    apply Hbits in Hf. apply Hbits in Hg.
    destruct Hf as (_ & _ & ->). destruct Hg as (_ & _ & ->).
    rewrite Nat2Z.inj_succ. unfold Z.succ. apply parity_step.
  - intros Ho. apply serialize_transfer_completes in Ho.
    destruct Ho as [(HL' & _) | (_ & padding & hi & lo & _ & _ & _ & ->)]; [lia|].
    cbn [yielded]. rewrite frames_length.
    destruct (chunks_many (Z.to_nat (M - 1)) (concat frags ++ padding ++ [hi; lo]))
      as (c0 & c1 & cs' & -> & _); [|cbn; lia].
    rewrite sum_len_concat in HL. unfold len in HL. rewrite !length_app. cbn [length]. lia.
Qed.

Lemma multi_frame_control_bits_witness :
  start_of_transfer (mkUAVCANFrame 0xbadc0fe [x1c; x1d; x35; x54] 323219 false true true false)
  = (4 =? 0)%nat
  /\ end_of_transfer (mkUAVCANFrame 0xbadc0fe [x1c; x1d; x35; x54] 323219 false true true false)
     = (5 =? length (yielded (serialize_transfer 0xbadc0fe 323219 [bytes_range 30] 7
                                                 false)))%nat
  /\ toggle_bit (mkUAVCANFrame 0xbadc0fe [x1c; x1d; x35; x54] 323219 false true true false)
     = (Z.of_nat 4 mod 2 =? 0).
Proof.
  apply (proj1 (multi_frame_control_bits 0xbadc0fe 323219 [bytes_range 30] 7 false
                  ltac:(lia) ltac:(vm_compute; reflexivity)) 4%nat).
  vm_compute. reflexivity.
Defined.

(** ** Padding of multi-frame transfers *)

(** C4, as the spec words it, fails on the fifth vector of the unit test:
    30 bytes at 11 per frame leave [rem + 2 = 10]; one padding byte is
    inserted, and 11 is not a legal frame length. *)
Lemma padding_rule_counterexample :
  11 < sum_len [bytes_range 30]
  /\ ~ padding_rounds_data_length (sum_len [bytes_range 30]) 11.
Proof.
  split; [vm_compute; reflexivity|]. intros H.
  specialize (H [x55] ltac:(vm_compute; reflexivity)).
  cbv zeta in H.
  change (sum_len [bytes_range 30] mod 11 + 2 >=? 11) with false in H.
  cbv iota in H. destruct H as (_ & Hlegal & _).
  apply dlc_legalb_spec in Hlegal. vm_compute in Hlegal. discriminate.
Qed.

(** C4, amended.  In a multi-frame transfer with
    [rem = payload_length mod M]: if [rem + 2 >= M] no padding is inserted;
    otherwise, as long as a legal frame length exists ([rem + 3 <= 64]), the
    padding is made of 0x55 bytes and is exactly long enough to bring
    [rem + 2 + 1], the last frame's data with its tail byte, to the smallest
    legal frame length; that keeps the padded data within [M] whenever
    [M + 1] is a legal frame length.  The padding sits between the payload
    and the two CRC bytes of the emitted stream. *)
Theorem multi_frame_padding_rule cid tid frags M lb :
  1 <= M -> M < sum_len frags ->
  (M <= sum_len frags mod M + 2 -> multi_frame_padding (sum_len frags) M = Ok [])
  /\ (sum_len frags mod M + 2 < M -> sum_len frags mod M + 3 <= 64 ->
      exists n,
        multi_frame_padding (sum_len frags) M = Ok (repeat x55 (Z.to_nat n))
        /\ 0 <= n
        /\ dlc_legal (sum_len frags mod M + 2 + n + 1)
        /\ (forall m, dlc_legal m -> sum_len frags mod M + 2 + 1 <= m ->
                      sum_len frags mod M + 2 + n + 1 <= m)
        /\ (dlc_legal (M + 1) -> sum_len frags mod M + 2 + n <= M))
  /\ (forall padding,
         multi_frame_padding (sum_len frags) M = Ok padding ->
         exists crc_bytes,
           length crc_bytes = 2%nat
           /\ carried (yielded (serialize_transfer cid tid frags M lb))
              = concat frags ++ padding ++ crc_bytes).
Proof.
  intros HM HL. split; [|split].
  - intros Hge. unfold multi_frame_padding, TRANSFER_CRC_LENGTH_BYTES.
    now replace (sum_len frags mod M + 2 >=? M) with true by (symmetry; apply Z.geb_le; lia).
  - intros Hlt Hroom. unfold multi_frame_padding, TRANSFER_CRC_LENGTH_BYTES.
    replace (sum_len frags mod M + 2 >=? M) with false
      by (symmetry; destruct (Z.geb_spec (sum_len frags mod M + 2) M); [lia | reflexivity]).
    destruct (get_required_padding (sum_len frags mod M + 2)) as [n|e] eqn:Hpad.
    + exists n. rewrite bytes_mul_padding.
      apply get_required_padding_spec in Hpad. destruct Hpad as (Hn & Hlegal & Hmin).
      repeat split; try assumption.
      intros HM1. specialize (Hmin (M + 1) HM1). lia.
    + exfalso. unfold get_required_padding in Hpad.
      destruct (dlc_ceil_defined (sum_len frags mod M + 2 + 1)) as [d Hd]; [lia|].
      rewrite Hd in Hpad. discriminate.
  - intros padding Hpad.
    destruct (serialize_multi cid tid frags M lb padding) as (hi & lo & _ & _ & ->);
      try assumption.
    exists [hi; lo]. split; [reflexivity|].
    cbn [yielded]. now rewrite carried_frames, chunks_concat.
Qed.

Lemma multi_frame_padding_rule_witness :
  exists n,
    multi_frame_padding (sum_len [bytes_range 30]) 11 = Ok (repeat x55 (Z.to_nat n))
    /\ 0 <= n
    /\ dlc_legal (sum_len [bytes_range 30] mod 11 + 2 + n + 1)
    /\ (forall m, dlc_legal m -> sum_len [bytes_range 30] mod 11 + 2 + 1 <= m ->
                  sum_len [bytes_range 30] mod 11 + 2 + n + 1 <= m)
    /\ (dlc_legal (11 + 1) -> sum_len [bytes_range 30] mod 11 + 2 + n <= 11).
Proof.
  apply (proj1 (proj2 (multi_frame_padding_rule 123456 32323219 [bytes_range 30] 11 false
                         ltac:(lia) ltac:(vm_compute; reflexivity)))).
  - vm_compute. reflexivity.
  - vm_compute. discriminate.
Defined.

(** ** The transfer CRC *)

(** C5.  In a multi-frame transfer the CRC is that of the concatenated
    fragments followed by the padding, computed by the CRC-16/CCITT-FALSE
    engine; its high byte, then its low byte, are the last two bytes of the
    stream, which is then re-chunked into the frame payloads.  In a
    single-frame transfer the payload of the frame is the concatenated
    fragments followed by padding only: no CRC. *)
Theorem transfer_crc_placement cid tid frags M lb :
  1 <= M ->
  (M < sum_len frags ->
   forall padding,
     multi_frame_padding (sum_len frags) M = Ok padding ->
     exists hi lo,
       byte_to_Z hi * 256 + byte_to_Z lo
       = CRC16CCITT.add CRC16CCITT.INITIAL (concat frags ++ padding)
       /\ 0 <= byte_to_Z lo < 256
       /\ outcome (serialize_transfer cid tid frags M lb) = Ok tt
       /\ map padded_payload (yielded (serialize_transfer cid tid frags M lb))
          = Util.chunks (Z.to_nat (M - 1)) (concat frags ++ padding ++ [hi; lo])
       /\ carried (yielded (serialize_transfer cid tid frags M lb))
          = concat frags ++ padding ++ [hi; lo])
  /\ (sum_len frags <= M ->
      forall f, In f (yielded (serialize_transfer cid tid frags M lb)) ->
                exists n, padded_payload f = concat frags ++ repeat x55 n).
Proof.
  intros HM. split.
  - intros HL padding Hpad.
    destruct (serialize_multi cid tid frags M lb padding) as (hi & lo & Hhi & Hlo & ->);
      try assumption.
    exists hi, lo. cbn [yielded outcome].
    rewrite carried_frames, chunks_concat. unfold Util.enumerate.
    rewrite frame_of_payloads.
    repeat split; try apply byte_to_Z_range.
    rewrite Hhi, Hlo. fold (CRC16CCITT.of_bytes (concat frags ++ padding)).
    rewrite (Z.div_mod (CRC16CCITT.of_bytes (concat frags ++ padding)) 256) at 3; lia.
  - intros HL f Hf.
    destruct (outcome (serialize_transfer cid tid frags M lb)) as [[]|e] eqn:Ho.
    + apply serialize_transfer_completes in Ho.
      destruct Ho as [(_ & n & _ & _ & _ & E) | (HL' & _)]; [|lia].
      rewrite E in Hf. destruct Hf as [<-|[]]. now exists (Z.to_nat n).
    + apply serialize_transfer_raises in Ho. destruct Ho as [E _].
      rewrite E in Hf. destruct Hf.
Qed.

Lemma transfer_crc_placement_witness :
  exists hi lo,
    byte_to_Z hi * 256 + byte_to_Z lo
    = CRC16CCITT.add CRC16CCITT.INITIAL (concat [bytes_range 30] ++ [x55])
    /\ 0 <= byte_to_Z lo < 256
    /\ outcome (serialize_transfer 123456 32323219 [bytes_range 30] 11 false) = Ok tt
    /\ map padded_payload (yielded (serialize_transfer 123456 32323219 [bytes_range 30] 11 false))
       = Util.chunks (Z.to_nat (11 - 1)) (concat [bytes_range 30] ++ [x55] ++ [hi; lo])
    /\ carried (yielded (serialize_transfer 123456 32323219 [bytes_range 30] 11 false))
       = concat [bytes_range 30] ++ [x55] ++ [hi; lo].
Proof.
  apply (proj1 (transfer_crc_placement 123456 32323219 [bytes_range 30] 11 false ltac:(lia))).
  - vm_compute. reflexivity.
  - vm_compute. reflexivity.
Defined.

(** ** Exceptions *)

(** C6, as the spec words it, fails in its second half: ten bytes at ten
    per frame are padded to eleven, and the one-chunk unpacking raises. *)
Lemma never_raises_counterexample :
  1 <= 10 /\ ~ never_raises [bytes_range 10] 10.
Proof.
  split; [lia|]. intros H. specialize (H 0 0 false). vm_compute in H. discriminate.
Qed.

(** C6, amended.  A frame capacity below one raises [ValueError] and no
    frame precedes it; whatever the input, no exception of the serializer
    follows a frame; and for a capacity of at least one that, with the tail
    byte, is a legal frame length, a non-empty payload of any length is
    serialized without an exception. *)
Theorem serialize_transfer_raising cid tid frags M lb :
  (M < 1 ->
   serialize_transfer cid tid frags M lb = Gen [] (Raise (ValueError (InvalidMaxPayload M))))
  /\ (forall e, outcome (serialize_transfer cid tid frags M lb) = Raise e ->
                yielded (serialize_transfer cid tid frags M lb) = [])
  /\ (1 <= M -> dlc_legal (M + 1) -> 1 <= sum_len frags ->
      outcome (serialize_transfer cid tid frags M lb) = Ok tt).
Proof.
  split; [|split].
  - intros HM. unfold serialize_transfer.
    now replace (M <? 1) with true by (symmetry; apply Z.ltb_lt; lia).
  - intros e He. now apply serialize_transfer_raises in He.
  - apply serialize_transfer_total.
Qed.

Lemma serialize_transfer_raising_witness :
  serialize_transfer 0xbadc0fe 32 [frag_Hell; frag_o] 0 false
  = Gen [] (Raise (ValueError (InvalidMaxPayload 0)))
  /\ outcome (serialize_transfer 0xbadc0fe 32 [frag_Hell; frag_o] 7 false) = Ok tt.
Proof.
  split.
  - apply (proj1 (serialize_transfer_raising 0xbadc0fe 32 [frag_Hell; frag_o] 0 false)). lia.
  - apply (proj2 (proj2 (serialize_transfer_raising 0xbadc0fe 32 [frag_Hell; frag_o] 7 false))).
    + lia.
    + apply dlc_legalb_spec. vm_compute. reflexivity.
    + vm_compute. discriminate.
Defined.

(** ** The vectors of the unit test *)

(** C7.  For the payload [bytes(range(0x1E))], the bytes 0 to 29 that the
    unit test feeds as one fragment with 7 payload bytes per frame, no
    padding is needed, the CRC over payload and padding is 0x3554, and the
    last frame carries 0x35 0x54 as its final bytes before the tail byte;
    the compiled frames are the five frames that the test expects. *)
Theorem crc_vector_0x3554 :
  multi_frame_padding (sum_len [bytes_range 30]) 7 = Ok []
  /\ transfer_crc [bytes_range 30] [] = 0x3554
  /\ CRC16CCITT.of_bytes (concat [bytes_range 30] ++ []) = 0x3554
  /\ (forall cid tid lb,
         exists earlier final t,
           yielded (serialize_transfer cid tid [bytes_range 30] 7 lb) = earlier ++ [final]
           /\ padded_payload final = [x1c; x1d] ++ [] ++ [x35; x54]
           /\ compile final
              = Ok (Media.mkDataFrame cid ([x1c; x1d] ++ [] ++ [x35; x54] ++ [t]) Media.EXTENDED lb))
  /\ compile_all (yielded (serialize_transfer 0xbadc0fe 323219 [bytes_range 30] 7 false))
     = all_ok
         [mkf 0xbadc0fe [x00; x01; x02; x03; x04; x05; x06] 19 true false true false;
          mkf 0xbadc0fe [x07; x08; x09; x0a; x0b; x0c; x0d] 19 false false false false;
          mkf 0xbadc0fe [x0e; x0f; x10; x11; x12; x13; x14] 19 false false true false;
          mkf 0xbadc0fe [x15; x16; x17; x18; x19; x1a; x1b] 19 false false false false;
          mkf 0xbadc0fe [x1c; x1d; x35; x54] 19 false true true false].
Proof.
  split; [vm_compute; reflexivity|].
  split; [vm_compute; reflexivity|].
  split; [vm_compute; reflexivity|].
  split; [|vm_compute; reflexivity].
  intros cid tid lb.
  set (final := mkUAVCANFrame cid [x1c; x1d; x35; x54] tid false true true lb).
  destruct (compile_tail final) as (t & E & _).
  exists (removelast (yielded (serialize_transfer cid tid [bytes_range 30] 7 lb))), final, t.
  split; [vm_compute; reflexivity|]. split; [reflexivity | exact E].
Qed.

(** C8, as the spec words it, fails: the one frame of "Hello" carries no
    padding byte. *)
Lemma hello_padding_counterexample :
  ~ exists f,
      yielded (serialize_transfer 0xbadc0fe 32 [frag_Hell; frag_o] 7 false) = [f]
      /\ padded_payload f = Hello ++ [x55; x55].
Proof.
  intros (f & E & P). vm_compute in E. injection E as <-.
  vm_compute in P. discriminate.
Qed.

(** C8, amended.  The payload "Hello", given as the fragments "Hell" and
    "o" with 7 payload bytes per frame, is serialized as exactly one frame
    with SOT, EOT and toggle set whose data is "Hello" with no padding byte
    (with the tail byte the frame has 6 bytes, a legal frame length); the
    compiled frame is the one that the unit test expects. *)
Theorem hello_single_frame cid tid lb :
  serialize_transfer cid tid [frag_Hell; frag_o] 7 lb
  = Gen [mkUAVCANFrame cid Hello tid true true true lb] (Ok tt)
  /\ (exists t,
         compile (mkUAVCANFrame cid Hello tid true true true lb)
         = Ok (Media.mkDataFrame cid (Hello ++ [t]) Media.EXTENDED lb)
         /\ Z.testbit (byte_to_Z t) 7 = true
         /\ Z.testbit (byte_to_Z t) 6 = true
         /\ Z.testbit (byte_to_Z t) 5 = true
         /\ Z.land (byte_to_Z t) 0x1F = tid mod 32)
  /\ get_required_padding (sum_len [frag_Hell; frag_o]) = Ok 0
  /\ compile_all (yielded (serialize_transfer 0xbadc0fe 32 [frag_Hell; frag_o] 7 false))
     = all_ok [mkf 0xbadc0fe Hello 0 true true true false].
Proof.
  split; [vm_compute; reflexivity|].
  split; [|split; vm_compute; reflexivity].
  destruct (compile_tail (mkUAVCANFrame cid Hello tid true true true lb)) as (t & E & Ht).
  exists t. split; [exact E|].
  cbn [start_of_transfer end_of_transfer toggle_bit transfer_id] in Ht.
  destruct (tail_value true true true (tid mod 32)) as (_ & _ & H7 & H6 & H5 & Hid).
  { apply Z.mod_pos_bound. lia. }
  rewrite Ht. auto.
Qed.

(** ** The tail byte of emitted frames *)

(** C9.  Every frame that the serializer emits compiles, without an
    exception, to its padded payload followed by one tail byte, whose value
    is [SOT << 7 | EOT << 6 | toggle << 5 | (transfer_id mod 32)] for the
    transfer id that the serializer was given; it is the frame that the
    unit test builds with [mkf] from the reduced transfer id. *)
Theorem tail_byte_encoding cid tid frags M lb f :
  In f (yielded (serialize_transfer cid tid frags M lb)) ->
  exists t,
    compile f = Ok (Media.mkDataFrame cid (padded_payload f ++ [t]) Media.EXTENDED lb)
    /\ byte_to_Z t
       = Z.lor (Z.lor (Z.lor (Z.shiftl (Z.b2z (start_of_transfer f)) 7)
                             (Z.shiftl (Z.b2z (end_of_transfer f)) 6))
                      (Z.shiftl (Z.b2z (toggle_bit f)) 5))
               (tid mod 32)
    /\ compile f
       = mkf cid (padded_payload f) (tid mod 32)
             (start_of_transfer f) (end_of_transfer f) (toggle_bit f) lb.
Proof.
  intros Hf.
  destruct (serialize_transfer_shape cid tid frags M lb) as (cs & E).
  rewrite E in Hf. apply frames_fields in Hf. destruct Hf as (Hid & Htid & Hlb).
  destruct (compile_tail f) as (t & Ec & Ht).
  rewrite Hid, Hlb in Ec. rewrite Htid in Ht.
  exists t. split; [exact Ec|]. split.
  - rewrite Ht.
    destruct (tail_value (start_of_transfer f) (end_of_transfer f) (toggle_bit f) (tid mod 32))
      as (_ & Hlor & _); [apply Z.mod_pos_bound; lia | exact Hlor].
  - unfold compile, mkf, TRANSFER_ID_MODULO. now rewrite Hid, Htid, Hlb.
Qed.

Lemma tail_byte_encoding_witness :
  exists t,
    compile (mkUAVCANFrame 0xbadc0fe Hello 32 true true true false)
    = Ok (Media.mkDataFrame 0xbadc0fe (Hello ++ [t]) Media.EXTENDED false)
    /\ byte_to_Z t
       = Z.lor (Z.lor (Z.lor (Z.shiftl (Z.b2z true) 7) (Z.shiftl (Z.b2z true) 6))
                      (Z.shiftl (Z.b2z true) 5))
               (32 mod 32)
    /\ compile (mkUAVCANFrame 0xbadc0fe Hello 32 true true true false)
       = mkf 0xbadc0fe Hello (32 mod 32) true true true false.
Proof.
  apply (tail_byte_encoding 0xbadc0fe 32 [frag_Hell; frag_o] 7 false
           (mkUAVCANFrame 0xbadc0fe Hello 32 true true true false)).
  vm_compute. left. reflexivity.
Defined.

(** ** The assertion of the single-frame branch *)

(** C10.  The assertion of the single-frame branch never fails, although
    the padding length is computed without the capacity: whatever the input,
    [AssertionError] is not raised, and every frame that the single-frame
    branch emits has a padded payload of at least the payload length and at
    most the capacity.  (A padded payload that exceeds the capacity is cut
    into two chunks and stopped by the one-chunk unpacking on the line
    before the assertion.)  When the capacity with the tail byte is a legal
    frame length, every non-empty payload within the capacity does yield
    that one frame. *)
Theorem single_frame_assertion cid tid frags M lb :
  outcome (serialize_transfer cid tid frags M lb) <> Raise AssertionError
  /\ (1 <= M -> sum_len frags <= M ->
      forall f, In f (yielded (serialize_transfer cid tid frags M lb)) ->
                sum_len frags <= len (padded_payload f) <= M)
  /\ (1 <= sum_len frags <= M -> dlc_legal (M + 1) ->
      exists f, yielded (serialize_transfer cid tid frags M lb) = [f]
                /\ sum_len frags <= len (padded_payload f) <= M).
Proof.
  split; [|split].
  - intros H. apply serialize_transfer_raises in H. destruct H as [_ H]. congruence.
  - intros HM HL f Hf.
    destruct (outcome (serialize_transfer cid tid frags M lb)) as [[]|e] eqn:Ho.
    + apply serialize_transfer_completes in Ho.
      destruct Ho as [(_ & n & Hn & Hfit & _ & E) | (HL' & _)]; [|lia].
      rewrite E in Hf. destruct Hf as [<-|[]].
      cbn [padded_payload]. rewrite len_padded by assumption. lia.
    + apply serialize_transfer_raises in Ho. destruct Ho as [E _].
      rewrite E in Hf. destruct Hf.
  - intros HL Hlegal.
    destruct (padding_fits (sum_len frags) M Hlegal) as (n & Hpad & Hn & Hfit); [lia|].
    rewrite (serialize_single cid tid frags M lb n) by (assumption || lia).
    eexists. split; [reflexivity|].
    cbn [padded_payload]. rewrite len_padded by assumption. lia.
Qed.

Lemma single_frame_assertion_witness :
  sum_len [bytes_range 60]
  <= len (padded_payload (mkUAVCANFrame 0xbadc0fe (bytes_range 60 ++ [x55; x55; x55]) 51
                                        true true true true))
  <= 63
  /\ (exists f, yielded (serialize_transfer 0xbadc0fe 51 [bytes_range 60] 63 true) = [f]
                /\ sum_len [bytes_range 60] <= len (padded_payload f) <= 63).
Proof.
  split.
  - apply (proj1 (proj2 (single_frame_assertion 0xbadc0fe 51 [bytes_range 60] 63 true))).
    + lia.
    + vm_compute. discriminate.
    + vm_compute. left. reflexivity.
  - apply (proj2 (proj2 (single_frame_assertion 0xbadc0fe 51 [bytes_range 60] 63 true))).
    + vm_compute. split; discriminate.
    + apply dlc_legalb_spec. vm_compute. reflexivity.
Defined.


(** * Further properties of the serializer *)

(** ** Chunks of an aligned prefix *)

Section ChunksAligned.
Context {A : Type}.
Implicit Types (k n : nat) (a b s : list A).

Lemma chunks_app_aligned k n : forall a b,
  length a = (n * S k)%nat ->
  Util.chunks k (a ++ b) = Util.chunks k a ++ Util.chunks k b.
Proof.
  induction n as [|n IH]; intros a b Ha.
  - destruct a; [|discriminate]. simp chunks. reflexivity.
  - destruct a as [|x rest]; [cbn in Ha; lia|].
    cbn [length] in Ha. cbn [app]. simp chunks.
    assert (Hrest : (k <= length rest)%nat) by lia.
    cbn [firstn]. rewrite firstn_app, skipn_app.
    replace (k - length rest)%nat with 0%nat by lia.
    cbn [firstn skipn]. rewrite app_nil_r.
    rewrite IH by (rewrite length_skipn; lia). reflexivity.
Qed.

Lemma chunks_aligned k n : forall a,
  length a = (n * S k)%nat ->
  length (Util.chunks k a) = n
  /\ Forall (fun c => length c = S k) (Util.chunks k a).
Proof.
  induction n as [|n IH]; intros a Ha.
  - destruct a; [|discriminate]. simp chunks. split; [reflexivity | constructor].
  - destruct a as [|x rest]; [cbn in Ha; lia|].
    cbn [length] in Ha. simp chunks.
    destruct (IH (skipn k rest)) as [Hn Hf]; [rewrite length_skipn; lia|].
    split; [cbn [length]; now rewrite Hn|].
    constructor; [|exact Hf].
    cbn [firstn length]. rewrite length_firstn. lia.
Qed.

(** A stream of [q] full chunks and [r] more bytes, [1 <= r <= S k], is cut
    into [q] full chunks and its last [r] bytes. *)
Lemma chunks_split k s q r :
  length s = (q * S k + r)%nat -> (1 <= r <= S k)%nat ->
  exists fulls,
    Util.chunks k s = fulls ++ [skipn (q * S k) s]
    /\ length fulls = q
    /\ Forall (fun c => length c = S k) fulls
    /\ concat fulls = firstn (q * S k) s
    /\ length (skipn (q * S k) s) = r.
Proof.
  intros Hs Hr.
  assert (Hfirst : length (firstn (q * S k) s) = (q * S k)%nat)
    by (rewrite length_firstn; lia).
  assert (Hlast : length (skipn (q * S k) s) = r)
    by (rewrite length_skipn; lia).
  exists (Util.chunks k (firstn (q * S k) s)).
  destruct (chunks_aligned k q _ Hfirst) as [Hn Hf].
  repeat split; try assumption.
  - rewrite <- (firstn_skipn (q * S k) s) at 1.
    rewrite (chunks_app_aligned k q) by assumption. f_equal.
    apply chunks_single; [|lia].
    intros E. rewrite E in Hlast. cbn in Hlast. lia.
  - apply chunks_concat.
Qed.

End ChunksAligned.

(** The frame payloads of a multi-frame transfer: full frames, then the
    last bytes of the stream of payload, padding and CRC. *)
Lemma multi_frame_chunks cid tid frags M lb padding :
  1 <= M -> M < sum_len frags ->
  multi_frame_padding (sum_len frags) M = Ok padding ->
  exists hi lo fulls final,
    byte_to_Z hi = CRC16CCITT.of_bytes (concat frags ++ padding) / 256
    /\ byte_to_Z lo = CRC16CCITT.of_bytes (concat frags ++ padding) mod 256
    /\ outcome (serialize_transfer cid tid frags M lb) = Ok tt
    /\ map padded_payload (yielded (serialize_transfer cid tid frags M lb))
       = fulls ++ [final]
    /\ concat fulls ++ final = concat frags ++ padding ++ [hi; lo]
    /\ Forall (fun c => len c = M) fulls
    /\ len fulls = (sum_len frags + len padding + 2 - 1) / M
    /\ len final = (sum_len frags + len padding + 2 - 1) mod M + 1.
Proof.
  intros HM HL Hpad.
  destruct (serialize_multi cid tid frags M lb padding) as (hi & lo & Hhi & Hlo & E);
    try assumption.
  set (stream := concat frags ++ padding ++ [hi; lo]) in *.
  set (total := sum_len frags + len padding + 2).
  assert (Hlen : len stream = total).
  { subst stream total. rewrite !len_app, sum_len_concat. unfold len at 3. cbn. lia. }
  pose proof (len_nonneg padding) as Hp.
  assert (Htot : 1 <= total - 1) by (subst total; lia).
  pose proof (Z.div_mod (total - 1) M ltac:(lia)) as Hdm.
  pose proof (Z.mod_pos_bound (total - 1) M ltac:(lia)) as Hmod.
  assert (Hq : 0 <= (total - 1) / M) by (apply Z.div_pos; lia).
  destruct (chunks_split (Z.to_nat (M - 1)) stream
                         (Z.to_nat ((total - 1) / M))
                         (Z.to_nat ((total - 1) mod M + 1)))
    as (fulls & Ec & Hn & Hf & Hcat & Hl).
  { apply Nat2Z.inj. rewrite Nat2Z.inj_add, Nat2Z.inj_mul.
    replace (Z.of_nat (S (Z.to_nat (M - 1)))) with M by lia.
    rewrite !Z2Nat.id by lia. fold (len stream). lia. }
  { lia. }
  exists hi, lo, fulls, (skipn (Z.to_nat ((total - 1) / M) * S (Z.to_nat (M - 1))) stream).
  rewrite E. cbn [yielded outcome]. unfold Util.enumerate. rewrite frame_of_payloads.
  repeat split; try assumption.
  - rewrite Hcat. apply firstn_skipn.
  - eapply Forall_impl; [|exact Hf]. intros c Hc. cbv beta in *. unfold len. lia.
  - unfold len. lia.
  - unfold len. lia.
Qed.

(** ** Sizes and number of the frames *)

(** X2.  In a multi-frame transfer every frame but the last carries
    exactly [M] bytes, the last one at least one and at most [M], and the
    number of frames is the payload, padding and two CRC bytes divided by
    [M], rounded up. *)
Theorem multi_frame_sizes cid tid frags M lb padding :
  1 <= M -> M < sum_len frags ->
  multi_frame_padding (sum_len frags) M = Ok padding ->
  exists fulls final,
    map padded_payload (yielded (serialize_transfer cid tid frags M lb)) = fulls ++ [final]
    /\ Forall (fun c => len c = M) fulls
    /\ 1 <= len final <= M
    /\ len fulls * M + len final = sum_len frags + len padding + 2
    /\ len (yielded (serialize_transfer cid tid frags M lb))
       = (sum_len frags + len padding + 2 + M - 1) / M.
Proof.
  intros HM HL Hpad.
  destruct (multi_frame_chunks cid tid frags M lb padding HM HL Hpad)
    as (hi & lo & fulls & final & _ & _ & _ & E & _ & Hf & Hn & Hl).
  pose proof (Z.div_mod (sum_len frags + len padding + 2 - 1) M ltac:(lia)) as Hdm.
  pose proof (Z.mod_pos_bound (sum_len frags + len padding + 2 - 1) M ltac:(lia)) as Hmod.
  exists fulls, final.
  split; [exact E|]. split; [exact Hf|]. split; [lia|]. split.
  - rewrite Hn, Hl. lia.
  - assert (Hcount : len (yielded (serialize_transfer cid tid frags M lb)) = len fulls + 1).
    { unfold len. rewrite <- (length_map padded_payload), E, length_app. cbn. lia. }
    rewrite Hcount, Hn.
    replace (sum_len frags + len padding + 2 + M - 1)
      with (sum_len frags + len padding + 2 - 1 + 1 * M) by lia.
    rewrite Z.div_add by lia. reflexivity.
Qed.

Lemma multi_frame_sizes_witness :
  exists fulls final,
    map padded_payload (yielded (serialize_transfer 123456 32323219 [bytes_range 29] 15 true))
    = fulls ++ [final]
    /\ Forall (fun c => len c = 15) fulls
    /\ 1 <= len final <= 15
    /\ len fulls * 15 + len final = sum_len [bytes_range 29] + len (@nil byte) + 2
    /\ len (yielded (serialize_transfer 123456 32323219 [bytes_range 29] 15 true))
       = (sum_len [bytes_range 29] + len (@nil byte) + 2 + 15 - 1) / 15.
Proof.
  apply (multi_frame_sizes 123456 32323219 [bytes_range 29] 15 true []).
  - lia.
  - vm_compute. reflexivity.
  - vm_compute. reflexivity.
Defined.

(** ** [run]: the compiled frames *)

Lemma for_each_compile (frames : list UAVCANFrame) :
  exists ds,
    compile_all frames = Ok ds
    /\ for_each frames (fun f => bind (lift (compile f)) (fun d => yield d))
       = Gen ds (Ok tt)
    /\ Forall2 compiles_to frames ds.
Proof.
  induction frames as [|f rest (ds & Ec & Ef & HF)].
  - exists []. repeat split. constructor.
  - destruct (compile_tail f) as (t & E & Ht).
    exists (Media.mkDataFrame (identifier f) (padded_payload f ++ [t]) Media.EXTENDED
                              (loopback f) :: ds).
    cbn [compile_all for_each]. rewrite E, Ec, Ef, bind_lift_Ok.
    repeat split. constructor; [|exact HF]. exists t. auto.
Qed.

Lemma Forall2_In_r {A B} (R : A -> B -> Prop) (l : list A) (l' : list B) (b : B) :
  Forall2 R l l' -> In b l' -> exists a, In a l /\ R a b.
Proof.
  induction 1 as [|a b' l l' Hab _ IH]; intros Hin; [destruct Hin|].
  destruct Hin as [<-|Hin].
  - exists a. split; [now left | assumption].
  - destruct (IH Hin) as (a' & Ha' & HR). exists a'. split; [now right | assumption].
Qed.

Lemma run_yields cid tid frags M lb :
  exists ds,
    run cid tid frags M lb = Gen ds (outcome (serialize_transfer cid tid frags M lb))
    /\ Forall2 compiles_to (yielded (serialize_transfer cid tid frags M lb)) ds.
Proof.
  destruct (for_each_compile (yielded (serialize_transfer cid tid frags M lb)))
    as (ds & _ & Ef & HF).
  exists ds. split; [|assumption].
  unfold run, for_gen. rewrite Ef. unfold bind, lift. cbn. now rewrite app_nil_r.
Qed.


(** ** Legal frame lengths *)

Lemma frame_payload_legal cid tid frags M lb f :
  1 <= M -> dlc_legal (M + 1) ->
  In f (yielded (serialize_transfer cid tid frags M lb)) ->
  dlc_legal (len (padded_payload f) + 1).
Proof.
  intros HM Hlegal Hf.
  destruct (outcome (serialize_transfer cid tid frags M lb)) as [[]|e] eqn:Ho.
  2:{ apply serialize_transfer_raises in Ho. destruct Ho as [E _].
      rewrite E in Hf. destruct Hf. }
  apply serialize_transfer_completes in Ho.
  destruct Ho as [(_ & n & Hn & _ & Hpad & E) | ([_ HL] & padding & _ & _ & Hpad & _)].
  - rewrite E in Hf. destruct Hf as [<-|[]]. cbn [padded_payload].
    rewrite len_padded by assumption.
    now apply get_required_padding_spec in Hpad.
  - destruct (multi_frame_chunks cid tid frags M lb padding HM HL Hpad)
      as (hi & lo & fulls & final & _ & _ & _ & E & _ & Hfull & _ & Hfinal).
    apply (in_map padded_payload) in Hf. rewrite E in Hf.
    apply in_app_or in Hf. destruct Hf as [Hf|[<-|[]]].
    + rewrite Forall_forall in Hfull. now rewrite (Hfull _ Hf).
    + rewrite Hfinal. clear E Hfull Hfinal.
      unfold multi_frame_padding, TRANSFER_CRC_LENGTH_BYTES in Hpad.
      pose proof (Z.mod_pos_bound (sum_len frags) M ltac:(lia)) as Hrem.
      pose proof (Z.div_mod (sum_len frags) M ltac:(lia)) as Hdm.
      destruct (Z.geb_spec (sum_len frags mod M + 2) M) as [Hge|Hlt].
      * injection Hpad as <-. change (len (@nil byte)) with 0.
        destruct (Z.eq_dec (sum_len frags mod M + 2) M) as [Heq|Hne].
        -- replace ((sum_len frags + 0 + 2 - 1) mod M) with (M - 1).
           { now replace (M - 1 + 1 + 1) with (M + 1) by lia. }
           apply Z.mod_unique with (q := sum_len frags / M); lia.
        -- replace ((sum_len frags + 0 + 2 - 1) mod M) with 0.
           { unfold dlc_legal, LEGAL_DATA_LENGTHS. cbn. tauto. }
           apply Z.mod_unique with (q := sum_len frags / M + 1); lia.
      * destruct (get_required_padding (sum_len frags mod M + 2)) as [n|e] eqn:Hn;
          [|discriminate].
        injection Hpad as <-. rewrite bytes_mul_padding.
        apply get_required_padding_spec in Hn. destruct Hn as (Hn0 & Hl & Hmin).
        specialize (Hmin (M + 1) Hlegal ltac:(lia)).
        unfold len at 1. rewrite repeat_length, Z2Nat.id by assumption.
        replace ((sum_len frags + n + 2 - 1) mod M) with (sum_len frags mod M + n + 1).
        { now replace (sum_len frags mod M + n + 1 + 1 + 1)
            with (sum_len frags mod M + 2 + n + 1) by lia. }
        apply Z.mod_unique with (q := sum_len frags / M); lia.
Qed.

(** X3.  When the frame capacity is at least one and, with the tail byte,
    a legal frame length, every media frame that [run] yields has a legal
    data length: the padding of the single frame, or of the last frame of a
    multi-frame transfer, is what makes it so. *)
Theorem wire_frames_have_legal_lengths cid tid frags M lb d :
  1 <= M -> dlc_legal (M + 1) ->
  In d (yielded (run cid tid frags M lb)) ->
  dlc_legal (len (Media.data d)).
Proof.
  intros HM Hlegal Hd.
  destruct (run_yields cid tid frags M lb) as (ds & E & HF).
  rewrite E in Hd. cbn [yielded] in Hd.
  destruct (Forall2_In_r _ _ _ _ HF Hd) as (f & Hf & t & -> & _).
  cbn [Media.data]. rewrite len_app. change (len [t]) with 1.
  now apply (frame_payload_legal cid tid frags M lb).
Qed.

Lemma wire_frames_have_legal_lengths_witness :
  dlc_legal (len (Media.data
    (Media.mkDataFrame 123456 [x16; x17; x18; x19; x1a; x1b; x1c; x1d; x55; x38; xa6; x73]
                       Media.EXTENDED false))).
Proof.
  apply (wire_frames_have_legal_lengths 123456 32323219 [bytes_range 30] 11 false).
  - lia.
  - apply dlc_legalb_spec. vm_compute. reflexivity.
  - vm_compute. right. right. left. reflexivity.
Defined.

(** ** Fragment boundaries *)

Lemma refragment_concat (frags : list (list byte)) (trailing : list byte) (M : Z) :
  Util.refragment (frags ++ [trailing]) M
  = Util.refragment ([concat frags] ++ [trailing]) M.
Proof.
  unfold Util.refragment. rewrite !concat_app. cbn [concat]. now rewrite !app_nil_r.
Qed.

Lemma transfer_crc_joined (frags : list (list byte)) (padding : list byte) :
  transfer_crc frags padding = transfer_crc [concat frags] padding.
Proof. rewrite !transfer_crc_concat. cbn [concat]. now rewrite app_nil_r. Qed.

(** The serializer reads its fragments as one buffer. *)
Lemma serialize_transfer_joined cid tid frags M lb :
  serialize_transfer cid tid frags M lb = serialize_transfer cid tid [concat frags] M lb.
Proof.
  unfold serialize_transfer.
  assert (HL : sum_len [concat frags] = sum_len frags)
    by (rewrite !sum_len_concat; cbn [concat]; now rewrite app_nil_r).
  rewrite HL.
  destruct (M <? 1); [reflexivity|].
  destruct (sum_len frags <=? M).
  - destruct (get_required_padding (sum_len frags)) as [n|e]; [|reflexivity].
    rewrite !bind_lift_Ok. now rewrite (refragment_concat frags).
  - destruct (multi_frame_padding (sum_len frags) M) as [padding|e]; [|reflexivity].
    rewrite !bind_lift_Ok, <- transfer_crc_joined.
    destruct (bytes_of_ints _) as [crc_bytes|e]; [|reflexivity].
    rewrite !bind_lift_Ok. now rewrite (refragment_concat frags).
Qed.

(** X1.  The frames depend on the bytes of the payload only, not on how
    the caller cut them into fragments: two fragment lists with the same
    concatenation are serialized alike, frames and outcome. *)
Theorem fragment_boundaries_do_not_matter cid tid frags frags' M lb :
  concat frags = concat frags' ->
  serialize_transfer cid tid frags M lb = serialize_transfer cid tid frags' M lb.
Proof.
  intros H.
  rewrite (serialize_transfer_joined cid tid frags), (serialize_transfer_joined cid tid frags').
  now rewrite H.
Qed.

Lemma fragment_boundaries_do_not_matter_witness :
  serialize_transfer 0xbadc0fe 32 [frag_Hell; frag_o] 7 false
  = serialize_transfer 0xbadc0fe 32 [[x48]; []; [x65; x6c; x6c; x6f]] 7 false.
Proof.
  apply (fragment_boundaries_do_not_matter 0xbadc0fe 32 [frag_Hell; frag_o]
           [[x48]; []; [x65; x6c; x6c; x6f]] 7 false).
  reflexivity.
Defined.

(** ** The CRC across two frames *)

(** X5.  When the payload leaves exactly one free byte in its last frame
    ([payload_length mod M = M - 1]), no padding is inserted and the CRC
    straddles two frames: the high byte fills the last full frame and the
    final frame carries the low CRC byte alone. *)
Theorem crc_straddles_two_frames cid tid frags M lb :
  1 <= M -> M < sum_len frags -> sum_len frags mod M = M - 1 ->
  exists fulls hi lo,
    map padded_payload (yielded (serialize_transfer cid tid frags M lb)) = fulls ++ [[lo]]
    /\ concat fulls = concat frags ++ [hi]
    /\ Forall (fun c => len c = M) fulls
    /\ byte_to_Z hi * 256 + byte_to_Z lo = CRC16CCITT.of_bytes (concat frags).
Proof.
  intros HM HL Hrem.
  assert (Hpad : multi_frame_padding (sum_len frags) M = Ok []).
  { unfold multi_frame_padding, TRANSFER_CRC_LENGTH_BYTES. rewrite Hrem.
    now replace (M - 1 + 2 >=? M) with true by (symmetry; apply Z.geb_le; lia). }
  destruct (serialize_multi cid tid frags M lb [] HM HL Hpad) as (hi & lo & Hhi & Hlo & E).
  rewrite app_nil_r in Hhi, Hlo. cbn [app] in E.
  pose proof (Z.div_mod (sum_len frags) M ltac:(lia)) as Hdm. rewrite Hrem in Hdm.
  assert (Hq : 0 <= sum_len frags / M) by (apply Z.div_pos; lia).
  assert (Hcut : (Z.to_nat (sum_len frags / M + 1) * S (Z.to_nat (M - 1)))%nat
                 = (length (concat frags) + 1)%nat).
  { apply Nat2Z.inj. rewrite Nat2Z.inj_mul, Nat2Z.inj_add.
    replace (Z.of_nat (S (Z.to_nat (M - 1)))) with M by lia.
    rewrite Z2Nat.id by lia. fold (len (concat frags)). rewrite <- sum_len_concat. lia. }
  destruct (chunks_split (Z.to_nat (M - 1)) (concat frags ++ [hi; lo])
                         (Z.to_nat (sum_len frags / M + 1)) 1)
    as (fulls & Ec & _ & Hf & Hcat & _).
  { rewrite Hcut, length_app. cbn. lia. }
  { lia. }
  rewrite Hcut in Ec, Hcat.
  rewrite skipn_app, skipn_all2 in Ec by lia.
  rewrite firstn_app, firstn_all2 in Hcat by lia.
  replace (length (concat frags) + 1 - length (concat frags))%nat with 1%nat in Ec, Hcat by lia.
  cbn [skipn firstn app] in Ec, Hcat.
  exists fulls, hi, lo. rewrite E. cbn [yielded]. unfold Util.enumerate.
  rewrite frame_of_payloads. repeat split; try assumption.
  - eapply Forall_impl; [|exact Hf]. intros c Hc. cbv beta in *. unfold len. lia.
  - rewrite Hhi, Hlo.
    rewrite (Z.div_mod (CRC16CCITT.of_bytes (concat frags)) 256) at 3; lia.
Qed.

Lemma crc_straddles_two_frames_witness :
  exists fulls hi lo,
    map padded_payload (yielded (serialize_transfer 123456 32323219 [bytes_range 29] 15 true))
    = fulls ++ [[lo]]
    /\ concat fulls = concat [bytes_range 29] ++ [hi]
    /\ Forall (fun c => len c = 15) fulls
    /\ byte_to_Z hi * 256 + byte_to_Z lo = CRC16CCITT.of_bytes (concat [bytes_range 29]).
Proof.
  apply (crc_straddles_two_frames 123456 32323219 [bytes_range 29] 15 true).
  - lia.
  - vm_compute. reflexivity.
  - vm_compute. reflexivity.
Defined.

(** ** Padding cannot be told from payload *)

Lemma dlc_ceil_legal (n : Z) : dlc_legal n -> dlc_ceil n = Some n.
Proof.
  unfold dlc_legal, LEGAL_DATA_LENGTHS. cbn [In]. intros H.
  repeat (destruct H as [<-|H]; [reflexivity|]). destruct H.
Qed.

Lemma get_required_padding_legal (data_length : Z) :
  dlc_legal (data_length + 1) -> get_required_padding data_length = Ok 0.
Proof.
  intros H. unfold get_required_padding. rewrite (dlc_ceil_legal _ H). f_equal. lia.
Qed.

Lemma byte_to_Z_inj (a b : byte) : byte_to_Z a = byte_to_Z b -> a = b.
Proof.
  unfold byte_to_Z. intros H. apply N2Z.inj in H.
  pose proof (Byte.of_to_N a) as Ha. rewrite H, Byte.of_to_N in Ha. congruence.
Qed.

(** A payload that already ends in its padding needs none. *)
Lemma multi_frame_padding_idem (L M : Z) (padding : list byte) :
  1 <= M -> dlc_legal (M + 1) ->
  multi_frame_padding L M = Ok padding ->
  multi_frame_padding (L + len padding) M = Ok [].
Proof.
  intros HM Hlegal H. unfold multi_frame_padding, TRANSFER_CRC_LENGTH_BYTES in *.
  pose proof (Z.mod_pos_bound L M ltac:(lia)) as Hrem.
  pose proof (Z.div_mod L M ltac:(lia)) as Hdm.
  destruct (Z.geb_spec (L mod M + 2) M) as [Hge|Hlt].
  - injection H as <-. change (len (@nil byte)) with 0. rewrite Z.add_0_r.
    now replace (L mod M + 2 >=? M) with true by (symmetry; apply Z.geb_le; lia).
  - destruct (get_required_padding (L mod M + 2)) as [n|e] eqn:Hn; [|discriminate].
    injection H as <-. rewrite bytes_mul_padding.
    apply get_required_padding_spec in Hn. destruct Hn as (Hn0 & Hl & Hmin).
    specialize (Hmin (M + 1) Hlegal ltac:(lia)).
    unfold len. rewrite repeat_length, Z2Nat.id by assumption.
    replace ((L + n) mod M) with (L mod M + n)
      by (apply Z.mod_unique with (q := L / M); lia).
    destruct (L mod M + n + 2 >=? M); [reflexivity|].
    rewrite get_required_padding_legal
      by (now replace (L mod M + n + 2 + 1) with (L mod M + 2 + n + 1) by lia).
    reflexivity.
Qed.

Lemma sum_len_app (frags : list (list byte)) (extra : list byte) :
  sum_len (frags ++ [extra]) = sum_len frags + len extra.
Proof.
  rewrite !sum_len_concat, concat_app, len_app. cbn [concat]. now rewrite app_nil_r.
Qed.

(** X4.  The serializer cannot tell its own padding from payload: with a
    frame capacity that, with the tail byte, is a legal frame length, a
    non-empty payload and the same payload followed by the padding that the
    serializer inserts for it yield the same frames.  So the frames of a
    transfer do not determine where its payload ends. *)
Theorem padding_is_absorbed cid tid frags M lb :
  1 <= M -> dlc_legal (M + 1) -> 1 <= sum_len frags ->
  (sum_len frags <= M ->
   forall n, get_required_padding (sum_len frags) = Ok n ->
             serialize_transfer cid tid (frags ++ [bytes_mul _PADDING_PATTERN n]) M lb
             = serialize_transfer cid tid frags M lb)
  /\ (M < sum_len frags ->
      forall padding, multi_frame_padding (sum_len frags) M = Ok padding ->
                      serialize_transfer cid tid (frags ++ [padding]) M lb
                      = serialize_transfer cid tid frags M lb).
Proof.
  intros HM Hlegal HL1. split.
  - intros HL n Hpad.
    destruct (padding_fits (sum_len frags) M Hlegal HL) as (n' & Hpad' & Hn & Hfit).
    rewrite Hpad in Hpad'. injection Hpad' as <-.
    pose proof (get_required_padding_spec _ _ Hpad) as (_ & Hl & _).
    rewrite bytes_mul_padding.
    assert (Hsum : sum_len (frags ++ [repeat x55 (Z.to_nat n)]) = sum_len frags + n).
    { rewrite sum_len_app. unfold len. rewrite repeat_length. lia. }
    rewrite (serialize_single cid tid frags M lb n) by (assumption || lia).
    rewrite (serialize_single cid tid (frags ++ [repeat x55 (Z.to_nat n)]) M lb 0);
      try (rewrite Hsum; lia); try assumption.
    + rewrite concat_app. cbn [concat Z.to_nat repeat]. now rewrite !app_nil_r.
    + rewrite Hsum. now apply get_required_padding_legal.
  - intros HL padding Hpad.
    pose proof (multi_frame_padding_idem _ _ _ HM Hlegal Hpad) as Hidem.
    rewrite <- sum_len_app in Hidem.
    pose proof (len_nonneg padding) as Hp.
    destruct (serialize_multi cid tid frags M lb padding HM HL Hpad)
      as (hi & lo & Hhi & Hlo & ->).
    destruct (serialize_multi cid tid (frags ++ [padding]) M lb [] HM
                              ltac:(rewrite sum_len_app; lia) Hidem)
      as (hi' & lo' & Hhi' & Hlo' & ->).
    assert (Hcat : concat (frags ++ [padding]) = concat frags ++ padding)
      by (rewrite concat_app; cbn [concat]; now rewrite app_nil_r).
    rewrite Hcat, app_nil_r in Hhi', Hlo'.
    rewrite <- Hhi in Hhi'. rewrite <- Hlo in Hlo'.
    apply byte_to_Z_inj in Hhi', Hlo'. subst hi' lo'.
    rewrite Hcat. cbn [app]. now rewrite <- app_assoc.
Qed.

Lemma padding_is_absorbed_witness :
  serialize_transfer 123456 32323219 ([bytes_range 30] ++ [[x55]]) 11 false
  = serialize_transfer 123456 32323219 [bytes_range 30] 11 false.
Proof.
  apply (proj2 (padding_is_absorbed 123456 32323219 [bytes_range 30] 11 false
                  ltac:(lia)
                  ltac:(apply dlc_legalb_spec; vm_compute; reflexivity)
                  ltac:(vm_compute; discriminate))).
  - vm_compute. reflexivity.
  - vm_compute. reflexivity.
Defined.

(** * The unit test and its helpers *)

(** ** [mkf] *)







(** ** The transfer id on the wire *)

Lemma serialize_transfer_retagged cid tid tid' frags M lb :
  exists cs,
    yielded (serialize_transfer cid tid frags M lb)
    = map (frame_of cid tid lb) (Util.enumerate (Util.mark_last cs))
    /\ yielded (serialize_transfer cid tid' frags M lb)
       = map (frame_of cid tid' lb) (Util.enumerate (Util.mark_last cs))
    /\ outcome (serialize_transfer cid tid frags M lb)
       = outcome (serialize_transfer cid tid' frags M lb).
Proof.
  unfold serialize_transfer.
  destruct (M <? 1); [now exists []|].
  destruct (sum_len frags <=? M).
  - destruct (get_required_padding (sum_len frags)) as [n|e]; [|now exists []].
    rewrite !bind_lift_Ok.
    destruct (unpack_one _) as [payload|e]; [|now exists []].
    rewrite !bind_lift_Ok.
    destruct (assert_ _) as [[]|e]; [|now exists []].
    rewrite !bind_lift_Ok. now exists [payload].
  - destruct (multi_frame_padding (sum_len frags) M) as [padding|e]; [|now exists []].
    rewrite !bind_lift_Ok.
    destruct (bytes_of_ints _) as [crc_bytes|e]; [|now exists []].
    rewrite !bind_lift_Ok.
    rewrite (for_each_yield (frame_of cid tid lb)), (for_each_yield (frame_of cid tid' lb))
      by (intros [index [last frag]]; reflexivity).
    eexists. repeat split.
Qed.

(** X9.  On the wire the transfer id counts modulo 32: two transfer ids
    with the same remainder give the same media frames for the same
    payload, so [run] cannot tell them apart. *)
Theorem transfer_id_wraps_modulo_32 cid tid tid' frags M lb :
  tid mod 32 = tid' mod 32 ->
  run cid tid frags M lb = run cid tid' frags M lb.
Proof.
  intros H.
  destruct (serialize_transfer_retagged cid tid tid' frags M lb) as (cs & Hy & Hy' & Ho).
  unfold run, for_gen. rewrite Hy, Hy', Ho. f_equal.
  generalize (Util.enumerate (Util.mark_last cs)) as items.
  induction items as [|[index [last frag]] rest IH]; [reflexivity|].
  cbn [map for_each]. rewrite IH. f_equal.
  unfold compile, frame_of, TRANSFER_ID_MODULO.
  cbn [transfer_id start_of_transfer end_of_transfer toggle_bit identifier
       padded_payload loopback].
  now rewrite H.
Qed.

Lemma transfer_id_wraps_modulo_32_witness :
  run 0xbadc0fe (32 + 19) [bytes_range 60] 63 true
  = run 0xbadc0fe 19 [bytes_range 60] 63 true.
Proof.
  apply (transfer_id_wraps_modulo_32 0xbadc0fe (32 + 19) 19 [bytes_range 60] 63 true).
  reflexivity.
Defined.

(** ** The unit test *)

(** X10.  [_unittest_can_serialize_transfer] passes: none of its eight
    assertions fails and no call in it raises. *)
Theorem unit_test_passes : _unittest_can_serialize_transfer = Ok tt.
Proof. vm_compute. reflexivity. Qed.

(** * [_uid]: unique ids from hexadecimal *)

Lemma hex_byte_facts (upper : bool) (b : byte) :
  PlugAndPlay.is_space (PlugAndPlay.hex_digit upper (Byte.to_N b / 16)) = false
  /\ PlugAndPlay.digit_value (PlugAndPlay.hex_digit upper (Byte.to_N b / 16))
     = Some (Byte.to_N b / 16)%N
  /\ PlugAndPlay.digit_value (PlugAndPlay.hex_digit upper (Byte.to_N b mod 16))
     = Some (Byte.to_N b mod 16)%N
  /\ PlugAndPlay.byte_of_digits (Byte.to_N b / 16) (Byte.to_N b mod 16) = b.
Proof. destruct upper, b; vm_compute; repeat split; reflexivity. Qed.

Lemma fromhex_at_hex_of (upper : bool) (data : list byte) :
  forall position,
    PlugAndPlay.fromhex_at position (PlugAndPlay.hex_of upper data) = inr data.
Proof.
  induction data as [|b rest IH]; intros position; [reflexivity|].
  destruct (hex_byte_facts upper b) as (Hs & Hhi & Hlo & Hb).
  cbn [PlugAndPlay.hex_of PlugAndPlay.fromhex_at].
  now rewrite Hs, Hhi, Hlo, IH, Hb.
Qed.

(** X11.  [_uid] reads back what [bytes.hex()] writes: for every buffer of
    16 bytes, the 32 hexadecimal digits of the buffer, in lower or in upper
    case, give the buffer itself; the digits of a buffer of another length
    fail the assertion. *)
Theorem uid_reads_back_hex (upper : bool) (data : list byte) :
  (length data = 16%nat ->
   PlugAndPlay._uid (PlugAndPlay.hex_of upper data) = inr data)
  /\ (length data <> 16%nat ->
      PlugAndPlay._uid (PlugAndPlay.hex_of upper data) = inl PlugAndPlay.UidAssertionError).
Proof.
  unfold PlugAndPlay._uid, PlugAndPlay.fromhex. rewrite fromhex_at_hex_of. split; intros H.
  - now rewrite H.
  - apply Nat.eqb_neq in H. now rewrite H.
Qed.

Lemma uid_reads_back_hex_witness :
  PlugAndPlay._uid (PlugAndPlay.hex_of true (bytes_range 16)) = inr (bytes_range 16)
  /\ PlugAndPlay._uid (PlugAndPlay.hex_of false (bytes_range 15))
     = inl PlugAndPlay.UidAssertionError.
Proof.
  split.
  - apply (proj1 (uid_reads_back_hex true (bytes_range 16))). reflexivity.
  - apply (proj2 (uid_reads_back_hex false (bytes_range 15))). vm_compute. discriminate.
Defined.

Lemma digit_is_not_space (c : Ascii.ascii) (v : N) :
  PlugAndPlay.digit_value c = Some v -> PlugAndPlay.is_space c = false.
Proof.
  destruct c as [[] [] [] [] [] [] [] []]; vm_compute; intros H;
    try discriminate; reflexivity.
Qed.

Lemma fromhex_at_digits (n : nat) :
  forall s position,
    (String.length s <= n)%nat ->
    PlugAndPlay.all_hex_digits s = true ->
    (Nat.even (String.length s) = true ->
     exists out, PlugAndPlay.fromhex_at position s = inr out
                 /\ (2 * length out = String.length s)%nat)
    /\ (Nat.even (String.length s) = false ->
        PlugAndPlay.fromhex_at position s
        = inl (PlugAndPlay.FromhexValueError (position + String.length s))).
Proof.
  induction n as [|n IH]; intros s position Hlen Hhex.
  - destruct s; [|cbn in Hlen; lia].
    split; [exists []; split; reflexivity | discriminate].
  - destruct s as [|c rest].
    { split; [exists []; split; reflexivity | discriminate]. }
    cbn [PlugAndPlay.all_hex_digits] in Hhex.
    destruct (PlugAndPlay.digit_value c) as [top|] eqn:Hc; [|discriminate].
    pose proof (digit_is_not_space c top Hc) as Hsp.
    destruct rest as [|c' rest'].
    { split; [discriminate|]. intros _.
      cbn [PlugAndPlay.fromhex_at String.length]. rewrite Hsp, Hc. do 2 f_equal. lia. }
    cbn [PlugAndPlay.all_hex_digits] in Hhex.
    destruct (PlugAndPlay.digit_value c') as [bot|] eqn:Hc'; [|discriminate].
    cbn [String.length] in Hlen.
    destruct (IH rest' (S (S position)) ltac:(lia) Hhex) as [Heven Hodd].
    cbn [PlugAndPlay.fromhex_at]. rewrite Hsp, Hc, Hc'.
    change (Nat.even (String.length (String.String c (String.String c' rest'))))
      with (Nat.even (String.length rest')).
    cbn [String.length]. split; intros He.
    + destruct (Heven He) as (out & -> & Hout).
      eexists. split; [reflexivity|]. cbn [length]. lia.
    + rewrite (Hodd He). do 2 f_equal. lia.
Qed.

(** X12.  On a string of hexadecimal digits only, [_uid] depends on the
    number of digits alone: an odd number raises the [ValueError] of
    [bytes.fromhex], at the position of the missing digit; 32 digits give 16
    bytes; any other even number fails the assertion. *)
Theorem uid_by_number_of_digits (s : String.string) :
  PlugAndPlay.all_hex_digits s = true ->
  (Nat.even (String.length s) = false ->
   PlugAndPlay._uid s = inl (PlugAndPlay.FromhexValueError (String.length s)))
  /\ (String.length s = 32%nat ->
      exists out, PlugAndPlay._uid s = inr out /\ length out = 16%nat)
  /\ (Nat.even (String.length s) = true -> String.length s <> 32%nat ->
      PlugAndPlay._uid s = inl PlugAndPlay.UidAssertionError).
Proof.
  intros Hhex.
  destruct (fromhex_at_digits (String.length s) s 0%nat (Nat.le_refl _) Hhex)
    as [Heven Hodd].
  unfold PlugAndPlay._uid, PlugAndPlay.fromhex. split; [|split].
  - intros He. now rewrite (Hodd He).
  - intros H32. destruct Heven as (out & -> & Hout); [now rewrite H32|].
    assert (Hl : length out = 16%nat) by lia.
    exists out. rewrite Hl. auto.
  - intros He Hne. destruct (Heven He) as (out & -> & Hout).
    replace (length out =? 16)%nat with false; [reflexivity|].
    symmetry. apply Nat.eqb_neq. lia.
Qed.

Lemma uid_by_number_of_digits_witness :
  PlugAndPlay._uid (PlugAndPlay.hex_of false (bytes_range 3))
  = inl PlugAndPlay.UidAssertionError.
Proof.
  apply (proj2 (proj2 (uid_by_number_of_digits (PlugAndPlay.hex_of false (bytes_range 3))
                         ltac:(vm_compute; reflexivity)))).
  - vm_compute. reflexivity.
  - vm_compute. discriminate.
Defined.

(** * More on the frames *)

(** ** [one] on [run] *)



(** ** Where the bytes go *)

Lemma chunks_nth {A : Type} (k : nat) : forall (i : nat) (s : list A),
  (i * S k < length s)%nat ->
  nth_error (Util.chunks k s) i = Some (firstn (S k) (skipn (i * S k) s)).
Proof.
  induction i as [|i IH]; intros s Hlen.
  - destruct s as [|x rest]; [cbn in Hlen; lia|]. simp chunks. reflexivity.
  - destruct s as [|x rest]; [cbn in Hlen; lia|]. simp chunks.
    cbn [nth_error]. cbn [length] in Hlen.
    rewrite IH by (rewrite length_skipn; lia).
    rewrite skipn_skipn. do 2 f_equal.
    replace (S i * S k)%nat with (S (i * S k + k)) by lia. reflexivity.
Qed.

Lemma chunks_nth_in_range {A : Type} (k : nat) : forall (i : nat) (s c : list A),
  nth_error (Util.chunks k s) i = Some c -> (i * S k < length s)%nat.
Proof.
  induction i as [|i IH]; intros s c Hc; destruct s as [|x rest];
    simp chunks in Hc; try discriminate; cbn [length].
  - lia.
  - cbn [nth_error] in Hc. apply IH in Hc. rewrite length_skipn in Hc. lia.
Qed.

(** X14.  In a multi-frame transfer the frame at index [i] carries the
    bytes [i * M] to [i * M + M - 1] of the stream made of the payload, the
    padding and the two CRC bytes (fewer for the last frame, where the
    stream ends): the bytes keep their order and every frame starts where
    the one before it stopped. *)
Theorem frame_carries_its_slice cid tid frags M lb padding i f :
  1 <= M -> M < sum_len frags ->
  multi_frame_padding (sum_len frags) M = Ok padding ->
  nth_error (yielded (serialize_transfer cid tid frags M lb)) i = Some f ->
  exists hi lo,
    byte_to_Z hi * 256 + byte_to_Z lo = CRC16CCITT.of_bytes (concat frags ++ padding)
    /\ padded_payload f
       = firstn (Z.to_nat M)
                (skipn (i * Z.to_nat M) (concat frags ++ padding ++ [hi; lo])).
Proof.
  intros HM HL Hpad Hf.
  destruct (serialize_multi cid tid frags M lb padding HM HL Hpad) as (hi & lo & Hhi & Hlo & E).
  exists hi, lo. split.
  { rewrite Hhi, Hlo.
    rewrite (Z.div_mod (CRC16CCITT.of_bytes (concat frags ++ padding)) 256) at 3; lia. }
  rewrite E in Hf. cbn [yielded] in Hf.
  apply frames_nth in Hf. destruct Hf as (c & Hc & ->). cbn [padded_payload].
  replace (Z.to_nat M) with (S (Z.to_nat (M - 1))) by lia.
  pose proof (chunks_nth_in_range _ _ _ _ Hc) as Hi.
  rewrite chunks_nth in Hc by assumption. now injection Hc as <-.
Qed.

Lemma frame_carries_its_slice_witness :
  exists hi lo,
    byte_to_Z hi * 256 + byte_to_Z lo
    = CRC16CCITT.of_bytes (concat [bytes_range 30] ++ [x55])
    /\ padded_payload
         (mkUAVCANFrame 123456 [x16; x17; x18; x19; x1a; x1b; x1c; x1d; x55; x38; xa6]
                        32323219 false true true false)
       = firstn (Z.to_nat 11)
                (skipn (2 * Z.to_nat 11) (concat [bytes_range 30] ++ [x55] ++ [hi; lo])).
Proof.
  apply (frame_carries_its_slice 123456 32323219 [bytes_range 30] 11 false [x55] 2).
  - lia.
  - vm_compute. reflexivity.
  - vm_compute. reflexivity.
  - vm_compute. reflexivity.
Defined.

(** * When the serializer fails *)

(** X15.  The single-frame branch fails in three ways, each before any
    frame: an empty payload leaves the one-chunk unpacking without a chunk
    ([ValueError]); a payload whose padding brings it past the frame
    capacity is cut into two chunks and fails the same unpacking
    ([ValueError]); and a payload that, with the tail byte, exceeds every
    legal frame length has no padding at all.  Otherwise it succeeds. *)
Theorem single_frame_failures cid tid frags M lb :
  1 <= M -> sum_len frags <= M ->
  (sum_len frags = 0 ->
   serialize_transfer cid tid frags M lb = Gen [] (Raise (ValueError (UnpackTooFew 0))))
  /\ (forall n, get_required_padding (sum_len frags) = Ok n ->
                M < sum_len frags + n ->
                serialize_transfer cid tid frags M lb
                = Gen [] (Raise (ValueError UnpackTooMany)))
  /\ (64 < sum_len frags + 1 ->
      serialize_transfer cid tid frags M lb
      = Gen [] (Raise (NoLegalFrameLength (sum_len frags + 1))))
  /\ (outcome (serialize_transfer cid tid frags M lb) = Ok tt
      <-> 1 <= sum_len frags
          /\ exists n, get_required_padding (sum_len frags) = Ok n
                       /\ sum_len frags + n <= M).
Proof.
  intros HM HL. split; [|split; [|split]].
  - intros H0. now apply serialize_single_empty.
  - intros n Hpad Hfit. now apply (serialize_single_overlong cid tid frags M lb n).
  - intros Hbig. unfold serialize_transfer.
    replace (M <? 1) with false by (symmetry; apply Z.ltb_ge; lia).
    replace (sum_len frags <=? M) with true by (symmetry; apply Z.leb_le; lia).
    unfold get_required_padding.
    destruct (dlc_ceil (sum_len frags + 1)) as [d|] eqn:Hd; [|reflexivity].
    apply dlc_ceil_spec in Hd. destruct Hd as (Hlegal & Hge & _).
    apply dlc_legal_le_64 in Hlegal. lia.
  - split.
    + intros Ho. apply serialize_transfer_completes in Ho.
      destruct Ho as [(HL1 & n & _ & Hfit & Hpad & _) | ([_ HL'] & _)]; [|lia].
      split; [lia|]. exists n. auto.
    + intros (HL1 & n & Hpad & Hfit).
      rewrite (serialize_single cid tid frags M lb n); (reflexivity || assumption || lia).
Qed.

Lemma single_frame_failures_witness :
  serialize_transfer 0xbadc0fe 32 [[]; []] 7 false
  = Gen [] (Raise (ValueError (UnpackTooFew 0)))
  /\ serialize_transfer 0xbadc0fe 32 [bytes_range 9] 10 false
     = Gen [] (Raise (ValueError UnpackTooMany))
  /\ serialize_transfer 0xbadc0fe 32 [bytes_range 64] 100 false
     = Gen [] (Raise (NoLegalFrameLength (sum_len [bytes_range 64] + 1))).
Proof.
  split; [|split].
  - apply (proj1 (single_frame_failures 0xbadc0fe 32 [[]; []] 7 false
                    ltac:(lia) ltac:(vm_compute; discriminate))).
    reflexivity.
  - apply (proj1 (proj2 (single_frame_failures 0xbadc0fe 32 [bytes_range 9] 10 false
                           ltac:(lia) ltac:(vm_compute; discriminate))) 2).
    + vm_compute. reflexivity.
    + vm_compute. reflexivity.
  - apply (proj1 (proj2 (proj2 (single_frame_failures 0xbadc0fe 32 [bytes_range 64] 100 false
                                  ltac:(lia) ltac:(vm_compute; discriminate))))).
    vm_compute. reflexivity.
Defined.

(** X16.  The multi-frame branch has no error path for the payload size:
    it finishes exactly when the padding of the last frame is defined, that
    is when no padding is needed ([rem + 2 >= M]) or the last frame's data
    with its tail byte fits a legal frame ([rem + 3 <= 64]); so for every
    capacity from 1 to 64, legal or not, every payload longer than the
    capacity is serialized. *)
Theorem multi_frame_outcome cid tid frags M lb :
  1 <= M -> M < sum_len frags ->
  (outcome (serialize_transfer cid tid frags M lb) = Ok tt
   <-> M <= sum_len frags mod M + 2 \/ sum_len frags mod M + 3 <= 64)
  /\ (M <= 64 -> outcome (serialize_transfer cid tid frags M lb) = Ok tt).
Proof.
  intros HM HL.
  pose proof (Z.mod_pos_bound (sum_len frags) M ltac:(lia)) as Hrem.
  assert (Hiff : outcome (serialize_transfer cid tid frags M lb) = Ok tt
                 <-> M <= sum_len frags mod M + 2 \/ sum_len frags mod M + 3 <= 64).
  { split.
    - intros Ho. apply serialize_transfer_completes in Ho.
      destruct Ho as [([_ HL'] & _) | (_ & padding & _ & _ & Hpad & _)]; [lia|].
      unfold multi_frame_padding, TRANSFER_CRC_LENGTH_BYTES in Hpad.
      destruct (Z.geb_spec (sum_len frags mod M + 2) M) as [Hge|Hlt]; [left; lia|].
      right. unfold get_required_padding in Hpad.
      destruct (dlc_ceil (sum_len frags mod M + 2 + 1)) as [d|] eqn:Hd; [|discriminate].
      apply dlc_ceil_spec in Hd. destruct Hd as (Hlegal & Hge & _).
      apply dlc_legal_le_64 in Hlegal. lia.
    - intros Hcase.
      assert (Hdef : exists padding, multi_frame_padding (sum_len frags) M = Ok padding).
      { unfold multi_frame_padding, TRANSFER_CRC_LENGTH_BYTES.
        destruct (Z.geb_spec (sum_len frags mod M + 2) M) as [Hge|Hlt];
          [eexists; reflexivity|].
        unfold get_required_padding.
        destruct (dlc_ceil_defined (sum_len frags mod M + 2 + 1)) as [d ->]; [lia|].
        eexists; reflexivity. }
      destruct Hdef as (padding & Hpad).
      destruct (serialize_multi cid tid frags M lb padding HM HL Hpad)
        as (hi & lo & _ & _ & ->).
      reflexivity. }
  split; [exact Hiff|].
  intros H64. apply Hiff. lia.
Qed.

Lemma multi_frame_outcome_witness :
  outcome (serialize_transfer 0xbadc0fe 32 [bytes_range 11] 10 false) = Ok tt.
Proof.
  apply (proj2 (multi_frame_outcome 0xbadc0fe 32 [bytes_range 11] 10 false
                  ltac:(lia) ltac:(vm_compute; reflexivity))).
  lia.
Defined.
